(** * The 5x5 board-game engine of server.js, embedded and verified

    The JavaScript server keeps one global [gameState] and one global
    [moveHistory], mutates them from three message handlers (setup, move,
    reset) and talks to its clients with [ws.send] and [broadcast].  The
    embedding below threads those globals, together with the list of messages
    emitted so far, through a small state-and-exception monad; an uncaught
    JavaScript [TypeError] is the exceptional outcome [Thrown]. *)

From Stdlib Require Import ZArith Lia String Ascii Bool.
From stdpp Require Import base list strings.

Local Open Scope string_scope.
Local Open Scope Z_scope.

(** ** JavaScript strings and arrays *)

Module Js.

(** [s.split(sep)] for a one-character separator: never empty, and the
    empty string splits into one empty field. *)
Fixpoint split (sep : ascii) (s : string) : list string :=
  match s with
  | EmptyString => [EmptyString]
  | String c s' =>
      if Ascii.eqb c sep then EmptyString :: split sep s'
      else match split sep s' with
           | [] => [String c EmptyString]
           | h :: t => String c h :: t
           end
  end.

(** [s[0]]: [None] stands for [undefined]. *)
Definition char0 (s : string) : option ascii :=
  match s with
  | EmptyString => None
  | String c _ => Some c
  end.

Fixpoint lastChar (s : string) : option ascii :=
  match s with
  | EmptyString => None
  | String c EmptyString => Some c
  | String _ s' => lastChar s'
  end.

(** [s.endsWith(c)] for a one-character string [c]. *)
Definition endsWith (s : string) (c : ascii) : bool :=
  match lastChar s with
  | Some d => Ascii.eqb d c
  | None => false
  end.

(** [arr[i] = v] on an array: inside the array the slot is replaced; at
    or past the end the array grows, the skipped slots being holes (which
    read as [undefined], here [None] of the element type). *)
Definition arraySet {T} (arr : list (option T)) (i : nat) (v : option T)
  : list (option T) :=
  if (i <? length arr)%nat then <[i:=v]> arr
  else arr ++ replicate (i - length arr)%nat None ++ [v].

(** [arr[i]] on an array of nullable values: out of range reads
    [undefined]. *)
Definition arrayGet {T} (arr : list (option T)) (i : nat) : option T :=
  match arr !! i with
  | Some v => v
  | None => None
  end.

End Js.

(** ** Data model *)

Inductive Player := A | B.

#[global] Instance Player_eq_dec : EqDecision Player.
Proof. solve_decision. Defined.

Definition playerName (p : Player) : string :=
  match p with A => "A" | B => "B" end.

(** [player === 'A' ? 'B' : 'A'] *)
Definition otherPlayer (p : Player) : Player :=
  match p with A => B | B => A end.

(** A roster entry [{ name, row, col }]. *)
Record Piece := mkPiece { name : string; row : Z; col : Z }.

#[global] Instance Piece_eq_dec : EqDecision Piece.
Proof. solve_decision. Defined.

(** A board cell: [null] (or a hole of a grown row) is [None]; otherwise the
    string ["<owner>-<name>"]. *)
Abbreviation Cell := (option string).

Abbreviation Board := (list (list (option string))).

Record GameState := mkGame {
  board : Board;
  piecesA : list Piece;
  piecesB : list Piece;
  currentPlayer : Player
}.

(** [gameState.players[player].pieces] *)
Definition pieces (p : Player) (g : GameState) : list Piece :=
  match p with A => piecesA g | B => piecesB g end.

Definition withPieces (p : Player) (l : list Piece) (g : GameState) : GameState :=
  match p with
  | A => mkGame (board g) l (piecesB g) (currentPlayer g)
  | B => mkGame (board g) (piecesA g) l (currentPlayer g)
  end.

Definition withBoard (b : Board) (g : GameState) : GameState :=
  mkGame b (piecesA g) (piecesB g) (currentPlayer g).

Definition withCurrent (p : Player) (g : GameState) : GameState :=
  mkGame (board g) (piecesA g) (piecesB g) p.

(** Outbound messages, by their [type] field. *)
Inductive Message :=
| MUpdate (g : GameState)
| MMoveHistory (data : list string)
| MError (message : string)
| MEnd (winner : Player).

(** [ws.send] answers the requesting client only; [broadcast] goes to every
    open client. *)
Inductive Event :=
| Send (m : Message)
| Broadcast (m : Message).

(** The two globals of the module and the messages emitted so far, oldest
    first. *)
Record World := mkWorld {
  gameState : GameState;
  moveHistory : list string;
  outbox : list Event
}.

(** ** The monad of the handlers *)

Inductive Result (T : Type) :=
| Ok (v : T) (w : World)
| Thrown.
Arguments Ok {T} v w.
Arguments Thrown {T}.

Definition M (T : Type) : Type := World -> Result T.

#[global] Instance M_ret : MRet M := fun T v w => Ok v w.
#[global] Instance M_bind : MBind M := fun T U f c w =>
  match c w with
  | Ok v w' => f v w'
  | Thrown => Thrown
  end.

Definition throw {T} : M T := fun _ => Thrown.
Definition getGame : M GameState := fun w => Ok (gameState w) w.
Definition modifyGame (f : GameState -> GameState) : M unit :=
  fun w => Ok tt (mkWorld (f (gameState w)) (moveHistory w) (outbox w)).
Definition getHistory : M (list string) := fun w => Ok (moveHistory w) w.
Definition putHistory (h : list string) : M unit :=
  fun w => Ok tt (mkWorld (gameState w) h (outbox w)).
Definition emit (e : Event) : M unit :=
  fun w => Ok tt (mkWorld (gameState w) (moveHistory w) (outbox w ++ [e])).

Definition wsSend (m : Message) : M unit := emit (Send m).
Definition broadcast (m : Message) : M unit := emit (Broadcast m).

(** ** Board access *)

(** [board[x][y]]: [None] is the [TypeError] of indexing the [undefined]
    row [board[x]]; a column outside the row reads [undefined]. *)
Definition cellAt (b : Board) (x y : Z) : option Cell :=
  if x <? 0 then None
  else match b !! Z.to_nat x with
       | None => None
       | Some r => Some (if y <? 0 then None else Js.arrayGet r (Z.to_nat y))
       end.

(** [board[x][y] = v].  Every write of the program has [0 <= y]; a negative
    [y] would add a non-index property and leave the array elements as they
    are. *)
Definition setCell (b : Board) (x y : Z) (v : Cell) : option Board :=
  if x <? 0 then None
  else match b !! Z.to_nat x with
       | None => None
       | Some r =>
           Some (<[Z.to_nat x := if y <? 0 then r else Js.arraySet r (Z.to_nat y) v]> b)
       end.

Definition readCell (x y : Z) : M Cell := fun w =>
  match cellAt (board (gameState w)) x y with
  | Some c => Ok c w
  | None => Thrown
  end.

Definition writeCell (x y : Z) (v : Cell) : M unit := fun w =>
  match setCell (board (gameState w)) x y v with
  | Some b => Ok tt (mkWorld (withBoard b (gameState w)) (moveHistory w) (outbox w))
  | None => Thrown
  end.

(** Truthiness of a cell value: [null], [undefined] and the empty string are
    falsy. *)
Definition truthy (c : Cell) : bool :=
  match c with
  | Some s => negb (String.eqb s "")
  | None => false
  end.

(** [cell && cell[0] === player] *)
Definition ownedBy (c : Cell) (p : Player) : bool :=
  match c with
  | Some s =>
      negb (String.eqb s "") &&
      match Js.char0 s with
      | Some ch => String.eqb (String ch "") (playerName p)
      | None => false
      end
  | None => false
  end.

(** [cell && cell[0] !== player] *)
Definition notOwnedBy (c : Cell) (p : Player) : bool :=
  match c with
  | Some s =>
      negb (String.eqb s "") &&
      match Js.char0 s with
      | Some ch => negb (String.eqb (String ch "") (playerName p))
      | None => true
      end
  | None => false
  end.

(** [gameState.players[k]] for a one-character key [k]: only ["A"] and
    ["B"] are keys of the [players] object. *)
Definition playerOfChar (ch : ascii) : option Player :=
  if Ascii.eqb ch "A" then Some A
  else if Ascii.eqb ch "B" then Some B
  else None.

(** ** The engine *)

Definition emptyBoard : Board := replicate 5 (replicate 5 None).

Definition freshGame : GameState := mkGame emptyBoard [] [] A.

(** [initializeGame()] *)
Definition initializeGame : M unit := fun w => Ok tt (mkWorld freshGame [] (outbox w)).

(** [resetGame()] *)
Definition resetGame : M unit :=
  initializeGame;;
  g ← getGame;
  broadcast (MUpdate g).

Definition homeRow (p : Player) : Z :=
  match p with A => 0 | B => 4 end.

(** ["${player}-${piece}"] *)
Definition label (p : Player) (piece : string) : string :=
  playerName p ++ "-" ++ piece.

(** The callback of [setupPositions.map] in [handleSetup], run on the
    elements in order starting at [index]. *)
Fixpoint placePieces (player : Player) (index : nat) (setupPositions : list string)
  : M (list Piece) :=
  match setupPositions with
  | [] => mret []
  | piece :: rest =>
      let row := homeRow player in
      let col := Z.of_nat index in
      writeCell row col (Some (label player piece));;
      tl ← placePieces player (S index) rest;
      mret (mkPiece piece row col :: tl)
  end.

Definition nonEmpty {T} (l : list T) : bool := (0 <? length l)%nat.

(** [handleSetup(data, ws)].  The elements of [setupPositions] are the
    piece names: the callback interpolates each one into the cell label and
    stores it as the [name] that [findPiece] later compares with a string. *)
Definition handleSetup (setupPositions : list string) : M unit :=
  g ← getGame;
  let player := currentPlayer g in
  if nonEmpty (pieces player g) then
    wsSend (MError "Setup already completed.")
  else
    ps ← placePieces player 0 setupPositions;
    modifyGame (withPieces player ps);;
    modifyGame (withCurrent (otherPlayer player));;
    g1 ← getGame;
    (if nonEmpty (piecesA g1) && nonEmpty (piecesB g1)
     then modifyGame (withCurrent A) else mret tt);;
    g2 ← getGame;
    broadcast (MUpdate g2).

(** [character.split('-')[1]] *)
Definition nameOf (character : string) : option string :=
  Js.split "-" character !! 1%nat.

(** [findPiece(player, character)]: [p.name === undefined] holds of no
    roster entry. *)
Definition findPiece (player : Player) (character : string) (g : GameState)
  : option Piece :=
  match nameOf character with
  | Some n => find (fun p => String.eqb (name p) n) (pieces player g)
  | None => None
  end.

(** [gameState.players[character[0]]] for a truthy cell value. *)
Definition ownerOf (character : Cell) : option Player :=
  match character with
  | Some s =>
      match Js.char0 s with
      | Some ch => playerOfChar ch
      | None => None
      end
  | None => None
  end.

(** [capturePiece(position)] *)
Definition capturePiece (x y : Z) : M unit :=
  character ← readCell x y;
  if truthy character then
    match ownerOf character with
    | None => throw
    | Some player =>
        modifyGame (fun g =>
          withPieces player
            (filter (fun p => row p ≠ x ∨ col p ≠ y) (pieces player g)) g);;
        writeCell x y None
    end
  else mret tt.

(** [movePawn(from, to)] *)
Definition movePawn (from to : Z * Z) : M bool :=
  let '(x, y) := to in
  c ← readCell x y;
  g ← getGame;
  if ownedBy c (currentPlayer g) then mret false
  else
    v ← readCell from.1 from.2;
    writeCell to.1 to.2 v;;
    writeCell from.1 from.2 None;;
    capturePiece x y;;
    mret true.

(** The body of [for (let i = 1; i <= 2; i++)] in [moveHero1] and
    [moveHero2], run for the values of [i] in [steps]; the result [false]
    is the [return false] inside the loop. *)
Fixpoint heroPath (steps : list Z) (fx fy dx dy : Z) : M bool :=
  match steps with
  | [] => mret true
  | i :: rest =>
      let nx := fx + i * dx in
      let ny := fy + i * dy in
      if (nx <? 0) || (5 <=? nx) || (ny <? 0) || (5 <=? ny) then mret false
      else
        c ← readCell nx ny;
        g ← getGame;
        (if notOwnedBy c (currentPlayer g) then capturePiece nx ny else mret tt);;
        heroPath rest fx fy dx dy
  end.

(** [moveHero1(from, to)] *)
Definition moveHero1 (from to : Z * Z) : M bool :=
  let '(x, y) := to in
  c ← readCell x y;
  g ← getGame;
  if ownedBy c (currentPlayer g) then mret false
  else
    let '(fx, fy) := from in
    let dx := Z.sgn (x - fx) in
    let dy := Z.sgn (y - fy) in
    ok ← heroPath [1; 2] fx fy dx dy;
    if negb ok then mret false
    else
      v ← readCell from.1 from.2;
      writeCell x y v;;
      writeCell from.1 from.2 None;;
      mret true.

(** [moveHero2(from, to)]: the same statements as [moveHero1]. *)
Definition moveHero2 (from to : Z * Z) : M bool :=
  let '(x, y) := to in
  c ← readCell x y;
  g ← getGame;
  if ownedBy c (currentPlayer g) then mret false
  else
    let '(fx, fy) := from in
    let dx := Z.sgn (x - fx) in
    let dy := Z.sgn (y - fy) in
    ok ← heroPath [1; 2] fx fy dx dy;
    if negb ok then mret false
    else
      v ← readCell from.1 from.2;
      writeCell x y v;;
      writeCell from.1 from.2 None;;
      mret true.

(** What [directions[move]] evaluates to. *)
Inductive Direction :=
| Offset (dr dc : Z)  (** one of the eight own properties *)
| Inherited           (** a member of [Object.prototype]: its [[0]] and
                          [[1]] are [undefined], so [to] is [[NaN, NaN]] *)
| Undefined.          (** no such property: reading [[0]] throws *)

Definition objectPrototypeKeys : list string :=
  [ "constructor"; "__defineGetter__"; "__defineSetter__"; "hasOwnProperty";
    "__lookupGetter__"; "__lookupSetter__"; "isPrototypeOf";
    "propertyIsEnumerable"; "toString"; "valueOf"; "__proto__";
    "toLocaleString" ].

Definition directions (player : Player) (move : string) : Direction :=
  let a := bool_decide (player = A) in
  if String.eqb move "L" then Offset 0 (-1)
  else if String.eqb move "R" then Offset 0 1
  else if String.eqb move "F" then (if a then Offset 1 0 else Offset (-1) 0)
  else if String.eqb move "B" then (if a then Offset (-1) 0 else Offset 1 0)
  else if String.eqb move "FL" then (if a then Offset 1 (-1) else Offset (-1) 1)
  else if String.eqb move "FR" then (if a then Offset 1 1 else Offset (-1) (-1))
  else if String.eqb move "BL" then (if a then Offset (-1) (-1) else Offset 1 1)
  else if String.eqb move "BR" then (if a then Offset (-1) 1 else Offset 1 (-1))
  else if existsb (String.eqb move) objectPrototypeKeys then Inherited
  else Undefined.

(** The cells in the order the two nested [for] loops of [processMove]
    visit them. *)
Definition scanOrder : list (Z * Z) :=
  x ← [0; 1; 2; 3; 4]; y ← [0; 1; 2; 3; 4]; [(x, y)].

(** The scan for [from]: the last matching cell wins; [None] on the outside
    is the [TypeError] of a missing row. *)
Fixpoint scanFrom (b : Board) (character : string) (cells : list (Z * Z))
    (from : option (Z * Z)) : option (option (Z * Z)) :=
  match cells with
  | [] => Some from
  | (x, y) :: rest =>
      match cellAt b x y with
      | None => None
      | Some c =>
          scanFrom b character rest
            (if bool_decide (c = Some character) then Some (x, y) else from)
      end
  end.

Definition offBoard (to : Z * Z) : bool :=
  (to.1 <? 0) || (5 <=? to.1) || (to.2 <? 0) || (5 <=? to.2).

(** The [switch] of [processMove] on the first letter of the piece name. *)
Definition dispatch (character : string) (from to : Z * Z) : M bool :=
  match nameOf character with
  | None => throw
  | Some n =>
      match Js.char0 n with
      | Some "P"%char => movePawn from to
      | Some "H"%char =>
          if Js.endsWith character "1" then moveHero1 from to
          else moveHero2 from to
      | _ => mret false
      end
  end.

(** The [switch] when [to] is [[NaN, NaN]]: every comparison of the bounds
    check is false, and [movePawn], [moveHero1] and [moveHero2] start by
    reading [board[NaN][NaN]], which throws. *)
Definition dispatchNaN (character : string) : M bool :=
  match nameOf character with
  | None => throw
  | Some n =>
      match Js.char0 n with
      | Some "P"%char => throw
      | Some "H"%char => throw
      | _ => mret false
      end
  end.

(** ["${player}-${character.split('-')[1]}: ${move}"]; the name is present
    whenever this is reached. *)
Definition moveDesc (player : Player) (character move : string) : string :=
  playerName player ++ "-" ++ default "undefined" (nameOf character) ++ ": " ++ move.

(** [processMove(player, character, move)] *)
Definition processMove (player : Player) (character move : string) : M bool :=
  g ← getGame;
  match scanFrom (board g) character scanOrder None with
  | None => throw
  | Some None => mret false
  | Some (Some from) =>
      moved ←
        match directions player move with
        | Undefined => throw
        | Inherited => dispatchNaN character
        | Offset dr dc =>
            let to := (from.1 + dr, from.2 + dc) in
            if offBoard to then mret false
            else dispatch character from to
        end;
      if moved : bool then
        h ← getHistory;
        putHistory (h ++ [moveDesc player character move]);;
        h' ← getHistory;
        broadcast (MMoveHistory h');;
        mret true
      else mret false
  end.

(** [handleMove(data, ws)] *)
Definition handleMove (character move : string) : M unit :=
  g ← getGame;
  let player := currentPlayer g in
  match findPiece player character g with
  | None => wsSend (MError "Invalid character.")
  | Some _ =>
      validMove ← processMove player character move;
      if negb validMove then wsSend (MError "Invalid move.")
      else
        g1 ← getGame;
        if negb (nonEmpty (piecesA g1)) || negb (nonEmpty (piecesB g1)) then
          let winner := if negb (nonEmpty (piecesA g1)) then B else A in
          broadcast (MEnd winner);;
          initializeGame
        else
          modifyGame (withCurrent (otherPlayer player));;
          g2 ← getGame;
          broadcast (MUpdate g2);;
          h ← getHistory;
          broadcast (MMoveHistory h)
  end.

(** Inbound messages, by their [type] field. *)
Inductive Command :=
| Setup (setupPositions : list string)
| Move (character move : string)
| Reset.

(** The [ws.on('message', ...)] callback. *)
Definition onMessage (c : Command) : M unit :=
  match c with
  | Setup setupPositions => handleSetup setupPositions
  | Move character move => handleMove character move
  | Reset => resetGame
  end.

(** The state a first connection creates. *)
Definition initialWorld : World := mkWorld freshGame [] [].

(** Messages are handled one at a time, each to completion. *)
Fixpoint run (cs : list Command) : M unit :=
  match cs with
  | [] => mret tt
  | c :: rest => onMessage c;; run rest
  end.

Definition stateAfter (cs : list Command) : option World :=
  match run cs initialWorld with
  | Ok _ w => Some w
  | Thrown => None
  end.

(** ** Vocabulary of the properties *)

Definition current (w : World) : Player := currentPlayer (gameState w).

(** The worlds the server can be in: the initial one and every one a
    handled message leads to. *)
Inductive Reachable : World -> Prop :=
| reach_init : Reachable initialWorld
| reach_step c w w' :
    Reachable w -> onMessage c w = Ok tt w' -> Reachable w'.

(** A command is rejected when all it does towards the clients is to send
    an [error] message to the requester. *)
Definition Rejected (w w' : World) : Prop :=
  exists m, outbox w' = (outbox w ++ [Send (MError m)])%list.

(** A computation never leaves the relation [R] between the world it starts
    in and the world it returns in. *)
Definition keeps (R : World -> World -> Prop) {T} (c : M T) : Prop :=
  forall w v w', c w = Ok v w' -> R w w'.

Definition sameTurn (w w' : World) : Prop := current w' = current w.
Definition sameOutbox (w w' : World) : Prop := outbox w' = outbox w.
Definition sameRowCount (w w' : World) : Prop :=
  length (board (gameState w')) = length (board (gameState w)).
Definition sameHistory (w w' : World) : Prop := moveHistory w' = moveHistory w.

(** What every attempted move leaves alone, accepted or not: the turn, the
    messages, the log and the number of rows of the board. *)
Definition quiet (w w' : World) : Prop :=
  sameTurn w w' /\ sameOutbox w w' /\ sameHistory w w' /\ sameRowCount w w'.

Definition fiveRows (w : World) : Prop := length (board (gameState w)) = 5%nat.

(** The home row after the callback of [handleSetup] has run on
    [setupPositions] from [index] on. *)
Fixpoint placedRow (player : Player) (index : nat) (setupPositions : list string)
    (r : list Cell) : list Cell :=
  match setupPositions with
  | [] => r
  | piece :: rest =>
      placedRow player (S index) rest
        (Js.arraySet r index (Some (label player piece)))
  end.

(** The roster [setupPositions.map] returns. *)
Definition placedRoster (player : Player) (setupPositions : list string) : list Piece :=
  imap (fun i piece => mkPiece piece (homeRow player) (Z.of_nat i)) setupPositions.

(** The game an accepted setup of [setupPositions] leaves, [r] being the
    home row of the acting player before it. *)
Definition afterSetup (g : GameState) (setupPositions : list string)
    (r : list Cell) : GameState :=
  let player := currentPlayer g in
  let g1 :=
    withPieces player (placedRoster player setupPositions)
      (withBoard (<[Z.to_nat (homeRow player) :=
                      placedRow player 0 setupPositions r]> (board g)) g) in
  withCurrent
    (if nonEmpty (piecesA g1) && nonEmpty (piecesB g1) then A
     else otherPlayer player) g1.

(** The command is a setup or a move, and it was not rejected. *)
Definition AcceptedSetupOrMove (c : Command) (w w' : World) : Prop :=
  ((exists s, c = Setup s) \/ (exists character move, c = Move character move)) /\
  ~ Rejected w w'.

(** The turn invariant as the specification words it: handling [c] in [w]
    changes the current player only if [c] is an accepted setup or an
    accepted move, and never when [c] is rejected. *)
Definition TurnChangesOnlyBySetupOrMove (c : Command) (w : World) : Prop :=
  forall w', onMessage c w = Ok tt w' ->
    (current w' <> current w -> AcceptedSetupOrMove c w w') /\
    (Rejected w w' -> current w' = current w).

(** The end of a match as the specification words it: when the accepted
    move [character], [move] in [w] leaves a roster empty, the messages of
    the command end with the [end] broadcast followed by an [update]
    broadcast that carries the fresh game. *)
Definition EndFollowedByUpdate (w : World) (character move : string) : Prop :=
  forall w1 w',
    processMove (current w) character move w = Ok true w1 ->
    pieces A (gameState w1) = [] \/ pieces B (gameState w1) = [] ->
    handleMove character move w = Ok tt w' ->
    gameState w' = freshGame /\
    exists pre winner,
      outbox w' = (pre ++ [Broadcast (MEnd winner); Broadcast (MUpdate freshGame)])%list.

(** Board and rosters mirror each other: every roster entry of a player
    names the cell that holds that player's piece of that name, and every
    cell holding ["X-n"] has exactly one entry named [n] in the roster of
    [X], located at that cell. *)
Definition Mirrored (g : GameState) : Prop :=
  (forall X p, p ∈ pieces X g ->
     cellAt (board g) (row p) (col p) = Some (Some (label X (name p)))) /\
  (forall r c X n, cellAt (board g) r c = Some (Some (label X n)) ->
     exists p, filter (fun q => name q = n) (pieces X g) = [p] /\
               row p = r /\ col p = c).

(** ** Concrete games

    Each scenario is a sequence of client messages handled from the initial
    world, and the world it leads to. *)

Definition worldAfter (cs : list Command) : World :=
  default initialWorld (stateAfter cs).

Module Scenario.

(** Both players set up one pawn. *)
Definition pawns : list Command := [Setup ["P1"]; Setup ["P1"]].
Definition pawnsPlaced : World := Eval vm_compute in worldAfter pawns.
Definition pawnMoved : World :=
  Eval vm_compute in worldAfter (pawns ++ [Move "A-P1" "F"]).

(** Both players set up one hero. *)
Definition heroes : list Command := [Setup ["H1"]; Setup ["H1"]].
Definition heroesPlaced : World := Eval vm_compute in worldAfter heroes.
Definition heroMoved : World :=
  Eval vm_compute in worldAfter (heroes ++ [Move "A-H1" "F"]).
Definition enemyHeroMoved : World :=
  Eval vm_compute in worldAfter (heroes ++ [Move "B-H1" "B"]).

(** A's hero walks to (3,1), next to B's pawn at (4,0), while B's hero
    steps aside. *)
Definition approach : list Command :=
  [Setup ["H1"]; Setup ["P1"; "H1"];
   Move "A-H1" "F"; Move "B-H1" "R"; Move "A-H1" "F"; Move "B-H1" "R";
   Move "A-H1" "FR"].
Definition pawnFacesHero : World := Eval vm_compute in worldAfter approach.
Definition pawnTookHero : World :=
  Eval vm_compute in worldAfter (approach ++ [Move "B-P1" "FL"]).

(** A's hero walks to (3,1), right in front of B's pawn at (4,1). *)
Definition edge : list Command :=
  [Setup ["H1"]; Setup ["P1"; "P2"; "H1"];
   Move "A-H1" "F"; Move "B-H1" "F"; Move "A-H1" "F"; Move "B-H1" "F";
   Move "A-H1" "FR"; Move "B-H1" "R"].
Definition heroAtEdge : World := Eval vm_compute in worldAfter edge.
Definition heroBounced : World :=
  Eval vm_compute in worldAfter (edge ++ [Move "A-H1" "F"]).

(** A's hero takes B's first piece, then stands two rows in front of B's
    last piece, which is back on its home cell. *)
Definition endgame : list Command :=
  [Setup ["H1"]; Setup ["X"; "H1"];
   Move "A-H1" "F"; Move "B-H1" "R"; Move "A-H1" "F"; Move "B-H1" "L";
   Move "A-H1" "F"; Move "B-H1" "R"; Move "A-H1" "BR"; Move "B-H1" "L"].
Definition lastPieceLeft : World := Eval vm_compute in worldAfter endgame.
Definition lastPieceTaken : World :=
  Eval vm_compute in
    match processMove A "A-H1" "F" lastPieceLeft with
    | Ok _ w => w
    | Thrown => lastPieceLeft
    end.

(** A has set up, B has not. *)
Definition firstSetup : World := Eval vm_compute in worldAfter [Setup ["P1"]].

End Scenario.

(** ** Vocabulary of the further properties *)

(** A cell as the setup handler writes it, or an empty one. *)
Definition okCell (c : Cell) : Prop :=
  c = None \/ exists X n, c = Some (label X n).

(** Five rows, and nothing but setup labels in the cells. *)
Definition goodBoard (b : Board) : Prop :=
  length b = 5%nat /\ forall x y c, cellAt b x y = Some c -> okCell c.

Definition goodWorld (w : World) : Prop := goodBoard (board (gameState w)).

Definition inGrid (p : Z * Z) : Prop := 0 <= p.1 < 5 /\ 0 <= p.2 < 5.

(** The keys of the [directions] object. *)
Definition moveCodes : list string := ["L"; "R"; "F"; "B"; "FL"; "FR"; "BL"; "BR"].

Definition validCode (move : string) : Prop := move ∈ moveCodes.

(** A command whose move code, if it has one, is a key of [directions]. *)
Definition validCommand (c : Command) : Prop :=
  match c with
  | Move _ move => validCode move
  | _ => True
  end.

(** Whether the piece type of [character] is one of the two letters the
    [switch] of [processMove] has a case for. *)
Definition hasMoveFunction (character : string) : bool :=
  match nameOf character with
  | Some n =>
      match Js.char0 n with
      | Some ch => Ascii.eqb ch "P" || Ascii.eqb ch "H"
      | None => false
      end
  | None => false
  end.

(** The move codes on which [processMove] throws once it has found the
    piece on the board. *)
Definition crashCode (player : Player) (character move : string) : bool :=
  match directions player move with
  | Offset _ _ => false
  | Inherited => hasMoveFunction character
  | Undefined => true
  end.

(** Rosters only lose entries: each roster of [w'] is a sublist of the same
    roster of [w]. *)
Definition rostersShrink (w w' : World) : Prop :=
  forall X, pieces X (gameState w') `sublist_of` pieces X (gameState w).

Fixpoint hasDash (s : string) : bool :=
  match s with
  | EmptyString => false
  | String c s' => Ascii.eqb c "-" || hasDash s'
  end.

(** Whether the [switch] of [processMove] sends the label to a hero
    function. *)
Definition isHero (character : string) : bool :=
  match nameOf character with
  | Some n =>
      match Js.char0 n with
      | Some ch => Ascii.eqb ch "H"
      | None => false
      end
  | None => false
  end.

(** The worlds single move functions lead to in the concrete games. *)
Module Step.

(** [movePawn([4,0], [3,1])] where B's pawn faces A's hero. *)
Definition pawnOntoHero : World :=
  Eval vm_compute in
    match movePawn (4, 0) (3, 1) Scenario.pawnFacesHero with
    | Ok _ w => w
    | Thrown => Scenario.pawnFacesHero
    end.

(** [moveHero1([2,1], [3,1])] where A's hero stands two rows in front of
    B's last piece. *)
Definition heroTakesLast : World :=
  Eval vm_compute in
    match moveHero1 (2, 1) (3, 1) Scenario.lastPieceLeft with
    | Ok _ w => w
    | Thrown => Scenario.lastPieceLeft
    end.

End Step.

(** Two worlds with the same game and the same log: they differ at most in
    the messages already sent. *)
Definition sameCore (w1 w2 : World) : Prop :=
  gameState w1 = gameState w2 /\ moveHistory w1 = moveHistory w2.

(** Two runs of one computation that agree on the result, end in worlds
    with the same game and log, and have emitted the same messages. *)
Definition agree {T} (w1 w2 : World) (r1 r2 : Result T) : Prop :=
  match r1, r2 with
  | Ok v1 w1', Ok v2 w2' =>
      v1 = v2 /\ sameCore w1' w2' /\
      exists evs, outbox w1' = (outbox w1 ++ evs)%list /\
                  outbox w2' = (outbox w2 ++ evs)%list
  | Thrown, Thrown => True
  | _, _ => False
  end.

(** A computation that never reads the messages already sent. *)
Definition blind {T} (c : M T) : Prop :=
  forall w1 w2, sameCore w1 w2 -> agree w1 w2 (c w1) (c w2).

(** The run of a sequence of commands that also records, for each player,
    the sequence of the last setup accepted from that player (a setup is
    accepted when the roster of the player whose turn it is is empty);
    [None] when a handler throws. *)
Fixpoint runRecording (cs : list Command) (w : World) (sA sB : list string)
  : option (World * list string * list string) :=
  match cs with
  | [] => Some (w, sA, sB)
  | c :: rest =>
      match onMessage c w with
      | Thrown => None
      | Ok _ w' =>
          match c, current w,
                match current w with
                | A => piecesA (gameState w)
                | B => piecesB (gameState w)
                end with
          | Setup s, A, [] => runRecording rest w' s sB
          | Setup s, B, [] => runRecording rest w' sA s
          | _, _, _ => runRecording rest w' sA sB
          end
      end
  end.

(** The roster entries a setup of [s] makes in [row]. *)
Definition entriesOf (row : Z) (s : list string) : list Piece :=
  imap (fun i piece => mkPiece piece row (Z.of_nat i)) s.

(** A cell value that is a non-empty string starting with the letter of
    [player]. *)
Definition friendlyCell (c : Cell) (player : Player) : Prop :=
  exists rest, c = Some (String (match player with A => "A" | B => "B" end)%char rest).

(** ** Running the monad *)

Lemma bind_Ok {T U} (c : M T) (f : T -> M U) w v w' :
  (c ≫= f) w = Ok v w' <-> exists u w1, c w = Ok u w1 /\ f u w1 = Ok v w'.
Proof.
  unfold mbind, M_bind. destruct (c w) as [u w1|]; split.
  - intros H. exists u, w1. auto.
  - intros (u' & w1' & E & H). congruence.
  - discriminate.
  - intros (u' & w1' & E & _). discriminate.
Qed.

Lemma bind_Thrown {T U} (c : M T) (f : T -> M U) w :
  c w = Thrown \/ (exists u w1, c w = Ok u w1 /\ f u w1 = Thrown) <->
  (c ≫= f) w = Thrown.
Proof.
  unfold mbind, M_bind. destruct (c w) as [u w1|]; split.
  - intros [|(u' & w1' & E & H)]; [discriminate | congruence].
  - intros H. right. by exists u, w1.
  - reflexivity.
  - intros _. by left.
Qed.

Lemma bind_run {T U} (c : M T) (f : T -> M U) w u w1 :
  c w = Ok u w1 -> (c ≫= f) w = f u w1.
Proof. unfold mbind, M_bind. intros ->. reflexivity. Qed.

Section Frame.

Variable R : World -> World -> Prop.
Hypothesis R_refl : forall w, R w w.
Hypothesis R_trans : forall a b c, R a b -> R b c -> R a c.

Lemma keeps_ret {T} (v : T) : keeps R (mret v).
Proof. intros w u w' H. injection H as _ <-. apply R_refl. Qed.

Lemma keeps_throw {T} : keeps R (@throw T).
Proof. intros w u w' H. discriminate. Qed.

Lemma keeps_bind {T U} (c : M T) (f : T -> M U) :
  keeps R c -> (forall u, keeps R (f u)) -> keeps R (c ≫= f).
Proof.
  intros Hc Hf w v w' H. apply bind_Ok in H as (u & w1 & E1 & E2).
  eapply R_trans; [eapply Hc | eapply Hf]; eassumption.
Qed.

Lemma keeps_getGame : keeps R getGame.
Proof. intros w u w' H. injection H as _ <-. apply R_refl. Qed.

Lemma keeps_getHistory : keeps R getHistory.
Proof. intros w u w' H. injection H as _ <-. apply R_refl. Qed.

Lemma keeps_readCell x y : keeps R (readCell x y).
Proof.
  intros w u w' H. unfold readCell in H.
  destruct (cellAt _ x y); [injection H as _ <-; apply R_refl | discriminate].
Qed.

(** The moves only write cells and filter rosters. *)
Hypothesis R_write : forall x y v, keeps R (writeCell x y v).
Hypothesis R_roster : forall p f,
  keeps R (modifyGame (fun g => withPieces p (f g) g)).

Lemma keeps_capturePiece x y : keeps R (capturePiece x y).
Proof.
  unfold capturePiece. apply keeps_bind; [apply keeps_readCell | intros c].
  destruct (truthy c); [| apply keeps_ret].
  destruct (ownerOf c); [| apply keeps_throw].
  apply keeps_bind; [apply R_roster | intros _; apply R_write].
Qed.

Lemma keeps_movePawn from to : keeps R (movePawn from to).
Proof.
  unfold movePawn. destruct to as [x y].
  apply keeps_bind; [apply keeps_readCell | intros c].
  apply keeps_bind; [apply keeps_getGame | intros g].
  destruct (ownedBy c _); [apply keeps_ret |].
  apply keeps_bind; [apply keeps_readCell | intros v].
  apply keeps_bind; [apply R_write | intros _].
  apply keeps_bind; [apply R_write | intros _].
  apply keeps_bind; [apply keeps_capturePiece | intros _; apply keeps_ret].
Qed.

Lemma keeps_heroPath steps fx fy dx dy : keeps R (heroPath steps fx fy dx dy).
Proof.
  induction steps as [|i rest IH]; cbn [heroPath]; [apply keeps_ret |].
  destruct (_ || _); [apply keeps_ret |].
  apply keeps_bind; [apply keeps_readCell | intros c].
  apply keeps_bind; [apply keeps_getGame | intros g].
  apply keeps_bind; [| intros _; apply IH].
  destruct (notOwnedBy c _); [apply keeps_capturePiece | apply keeps_ret].
Qed.

Lemma keeps_moveHero1 from to : keeps R (moveHero1 from to).
Proof.
  unfold moveHero1. destruct to as [x y], from as [fx fy].
  apply keeps_bind; [apply keeps_readCell | intros c].
  apply keeps_bind; [apply keeps_getGame | intros g].
  destruct (ownedBy c _); [apply keeps_ret |].
  apply keeps_bind; [apply keeps_heroPath | intros ok].
  destruct ok; cbn [negb]; [| apply keeps_ret].
  apply keeps_bind; [apply keeps_readCell | intros v].
  apply keeps_bind; [apply R_write | intros _].
  apply keeps_bind; [apply R_write | intros _; apply keeps_ret].
Qed.

Lemma keeps_moveHero2 from to : keeps R (moveHero2 from to).
Proof. exact (keeps_moveHero1 from to). Qed.

Lemma keeps_dispatch character from to : keeps R (dispatch character from to).
Proof.
  unfold dispatch. destruct (nameOf character) as [n|]; [| apply keeps_throw].
  destruct (Js.char0 n) as [ch|]; [| apply keeps_ret].
  destruct (Ascii.eqb_spec ch "P") as [->|NP]; [apply keeps_movePawn |].
  destruct (Ascii.eqb_spec ch "H") as [->|NH].
  - destruct (Js.endsWith _ _); [apply keeps_moveHero1 | apply keeps_moveHero2].
  - destruct ch as [[] [] [] [] [] [] [] []];
      first [apply keeps_ret | congruence].
Qed.

Lemma keeps_dispatchNaN character : keeps R (dispatchNaN character).
Proof.
  unfold dispatchNaN. destruct (nameOf character) as [n|]; [| apply keeps_throw].
  destruct (Js.char0 n) as [ch|]; [| apply keeps_ret].
  destruct ch as [[] [] [] [] [] [] [] []];
    first [apply keeps_ret | apply keeps_throw].
Qed.

(** The move proper: what [processMove] runs between finding [from] and
    logging the move. *)
Lemma keeps_attempt player character move from :
  keeps R
    match directions player move with
    | Undefined => throw
    | Inherited => dispatchNaN character
    | Offset dr dc =>
        let to := (from.1 + dr, from.2 + dc) in
        if offBoard to then mret false else dispatch character from to
    end.
Proof.
  destruct (directions player move) as [dr dc| |].
  - cbv zeta. destruct (offBoard _); [apply keeps_ret | apply keeps_dispatch].
  - apply keeps_dispatchNaN.
  - apply keeps_throw.
Qed.

Lemma keeps_placePieces player s : forall index,
  keeps R (placePieces player index s).
Proof.
  induction s as [|piece rest IH]; intros index; cbn [placePieces];
    [apply keeps_ret |].
  apply keeps_bind; [apply R_write | intros _].
  apply keeps_bind; [apply IH | intros tl; apply keeps_ret].
Qed.

End Frame.

(** ** Arrays and cells *)

Lemma arrayGet_arraySet {T} (arr : list (option T)) (i j : nat) (v : option T) :
  Js.arrayGet (Js.arraySet arr j v) i = if decide (i = j) then v else Js.arrayGet arr i.
Proof.
  unfold Js.arrayGet, Js.arraySet.
  destruct (Nat.ltb_spec j (length arr)) as [Hj|Hj]; destruct (decide (i = j)) as [->|Hne].
  - by rewrite list_lookup_insert_eq.
  - by rewrite list_lookup_insert_ne.
  - rewrite lookup_app_r by lia. rewrite lookup_app_r by (rewrite length_replicate; lia).
    rewrite length_replicate. by replace (j - length arr - (j - length arr))%nat with 0%nat by lia.
  - destruct (Nat.lt_ge_cases i (length arr)) as [Hi|Hi].
    + by rewrite lookup_app_l.
    + rewrite (lookup_ge_None_2 arr i) by lia. rewrite lookup_app_r by lia.
      destruct (Nat.lt_ge_cases i j) as [Hij|Hij].
      * rewrite lookup_app_l by (rewrite length_replicate; lia).
        rewrite lookup_replicate_2 by lia. reflexivity.
      * rewrite lookup_app_r by (rewrite length_replicate; lia).
        rewrite length_replicate.
        destruct (i - length arr - (j - length arr))%nat as [|k] eqn:E; [lia | reflexivity].
Qed.


Lemma cellAt_setCell b x y v b' x' y' :
  setCell b x y v = Some b' -> 0 <= y -> 0 <= y' ->
  cellAt b' x' y' =
    if decide (x' = x /\ y' = y) then Some v else cellAt b x' y'.
Proof.
  unfold setCell, cellAt. intros H Hy Hy'.
  destruct (Z.ltb_spec x 0) as [|Hx]; [discriminate |].
  destruct (b !! Z.to_nat x) as [r|] eqn:Er; [| discriminate].
  injection H as <-.
  destruct (Z.ltb_spec y 0); [lia |]. destruct (Z.ltb_spec y' 0); [lia |].
  destruct (Z.ltb_spec x' 0) as [|Hx'].
  { destruct (decide _) as [[-> _]|]; [lia | reflexivity]. }
  destruct (decide (x' = x)) as [->|Hne].
  - rewrite list_lookup_insert_eq by (eapply lookup_lt_Some; eassumption).
    rewrite Er, arrayGet_arraySet.
    destruct (decide (Z.to_nat y' = Z.to_nat y)) as [E|E];
      destruct (decide _) as [[_ E']|E']; try reflexivity; exfalso.
    + apply E'. split; [reflexivity | lia].
    + apply E. by rewrite E'.
  - rewrite list_lookup_insert_ne by lia.
    destruct (decide _) as [[E _]|]; [contradiction | reflexivity].
Qed.

(** ** Setup *)

Lemma placedRow_below player s : forall index r j,
  (j < index)%nat ->
  Js.arrayGet (placedRow player index s r) j = Js.arrayGet r j.
Proof.
  induction s as [|piece rest IH]; intros index r j Hj; cbn [placedRow]; [reflexivity |].
  rewrite IH by lia. rewrite arrayGet_arraySet.
  destruct (decide (j = index)); [lia | reflexivity].
Qed.

Lemma placedRow_get player s : forall index r i piece,
  s !! i = Some piece ->
  Js.arrayGet (placedRow player index s r) (index + i) = Some (label player piece).
Proof.
  induction s as [|p rest IH]; intros index r i piece Hi; [discriminate |].
  cbn [placedRow]. destruct i as [|i].
  - injection Hi as ->. rewrite placedRow_below by lia.
    rewrite Nat.add_0_r, arrayGet_arraySet. by destruct (decide _).
  - replace (index + S i)%nat with (S index + i)%nat by lia. by apply IH.
Qed.


Lemma placePieces_run player s : forall index w r,
  board (gameState w) !! Z.to_nat (homeRow player) = Some r ->
  placePieces player index s w =
    Ok (imap (fun i piece => mkPiece piece (homeRow player) (Z.of_nat (index + i))) s)
       (mkWorld
          (withBoard (<[Z.to_nat (homeRow player) := placedRow player index s r]>
                        (board (gameState w))) (gameState w))
          (moveHistory w) (outbox w)).
Proof.
  induction s as [|piece rest IH]; intros index w r Hr; cbn [placePieces placedRow].
  - rewrite list_insert_id by assumption. by destruct w as [[] ? ?].
  - assert (Hlt : (Z.to_nat (homeRow player) < length (board (gameState w)))%nat)
      by (eapply lookup_lt_Some; eassumption).
    assert (Hw : writeCell (homeRow player) (Z.of_nat index) (Some (label player piece)) w
             = Ok tt (mkWorld
                 (withBoard (<[Z.to_nat (homeRow player) :=
                                 Js.arraySet r index (Some (label player piece))]>
                               (board (gameState w))) (gameState w))
                 (moveHistory w) (outbox w))).
    { unfold writeCell, setCell. rewrite Hr.
      destruct (Z.ltb_spec (homeRow player) 0); [by destruct player |].
      destruct (Z.ltb_spec (Z.of_nat index) 0); [lia |].
      by rewrite Nat2Z.id. }
    rewrite (bind_run _ _ _ _ _ Hw).
    erewrite bind_run; [| apply IH; cbn; by rewrite list_lookup_insert_eq].
    cbn. rewrite list_insert_insert_eq. unfold mret, M_ret. f_equal.
    rewrite Nat.add_0_r. f_equal. apply imap_ext. intros i x _. cbn.
    f_equal. lia.
Qed.

Lemma nonEmpty_nil {T} : @nonEmpty T [] = false.
Proof. reflexivity. Qed.

Lemma fiveRows_home w player :
  fiveRows w -> is_Some (board (gameState w) !! Z.to_nat (homeRow player)).
Proof.
  unfold fiveRows. intros H. apply lookup_lt_is_Some. rewrite H.
  destruct player; cbn; lia.
Qed.

(** An accepted setup, run to its end. *)
Lemma handleSetup_run w s r :
  pieces (current w) (gameState w) = [] ->
  board (gameState w) !! Z.to_nat (homeRow (current w)) = Some r ->
  handleSetup s w =
    Ok tt (mkWorld (afterSetup (gameState w) s r) (moveHistory w)
             (outbox w ++ [Broadcast (MUpdate (afterSetup (gameState w) s r))])).
Proof.
  intros Hempty Hr. unfold handleSetup, current in *.
  rewrite (bind_run getGame _ w (gameState w) w eq_refl).
  rewrite Hempty, nonEmpty_nil.
  erewrite bind_run; [| apply placePieces_run, Hr].
  unfold afterSetup, placedRoster, mbind, M_bind, modifyGame, getGame,
    broadcast, emit, mret, M_ret.
  cbn -[nonEmpty placedRow imap].
  destruct (currentPlayer (gameState w)); cbn -[nonEmpty placedRow imap];
    destruct (_ && _); reflexivity.
Qed.

Lemma afterSetup_pieces g s r :
  pieces (currentPlayer g) (afterSetup g s r) = placedRoster (currentPlayer g) s.
Proof. unfold afterSetup. destruct (currentPlayer g); reflexivity. Qed.

Lemma afterSetup_other g s r :
  pieces (otherPlayer (currentPlayer g)) (afterSetup g s r)
    = pieces (otherPlayer (currentPlayer g)) g.
Proof. unfold afterSetup. by destruct (currentPlayer g). Qed.

Lemma afterSetup_board g s r :
  board (afterSetup g s r) =
    <[Z.to_nat (homeRow (currentPlayer g)) := placedRow (currentPlayer g) 0 s r]> (board g).
Proof. unfold afterSetup. destruct (currentPlayer g); reflexivity. Qed.

Lemma afterSetup_current g s r :
  currentPlayer (afterSetup g s r) =
    if nonEmpty (piecesA (afterSetup g s r)) && nonEmpty (piecesB (afterSetup g s r))
    then A else otherPlayer (currentPlayer g).
Proof. unfold afterSetup. destruct (currentPlayer g); reflexivity. Qed.

Lemma afterSetup_home g s r :
  board g !! Z.to_nat (homeRow (currentPlayer g)) = Some r ->
  board (afterSetup g s r) !! Z.to_nat (homeRow (currentPlayer g))
    = Some (placedRow (currentPlayer g) 0 s r).
Proof.
  intros Hr. rewrite afterSetup_board. apply list_lookup_insert_eq.
  eapply lookup_lt_Some, Hr.
Qed.


Lemma broadcast_not_rejected w w' pre m :
  outbox w' = (outbox w ++ pre ++ [Broadcast m])%list -> ~ Rejected w w'.
Proof.
  intros E [e He]. rewrite E in He. apply app_inv_head in He.
  destruct pre as [|a [|b pre]]; discriminate.
Qed.

Lemma afterSetup_turn g s r :
  (piecesA (afterSetup g s r) <> [] /\ piecesB (afterSetup g s r) <> [] ->
   currentPlayer (afterSetup g s r) = A) /\
  (piecesA (afterSetup g s r) = [] \/ piecesB (afterSetup g s r) = [] ->
   currentPlayer (afterSetup g s r) = match currentPlayer g with A => B | B => A end).
Proof.
  rewrite afterSetup_current.
  destruct (piecesA (afterSetup g s r)) as [|a pa], (piecesB (afterSetup g s r)) as [|b pb];
    cbn; (split; [intros [Ha Hb]; congruence | intros [H|H]]);
    first [discriminate | by destruct (currentPlayer g)].
Qed.

(** C7: an accepted setup by the current player X puts the i-th submitted
    piece in X's roster at row 0 (X is A) or row 4 (X is B) and column i,
    writes its label "X-<piece>" in that board cell, for every index i, and
    leaves the other roster alone; afterwards the current player is A when
    both rosters are non-empty, and the other player otherwise. *)
Theorem handleSetup_places (w : World) (s : list string) :
  fiveRows w ->
  match current w with A => piecesA (gameState w) | B => piecesB (gameState w) end = [] ->
  let home : Z := match current w with A => 0 | B => 4 end in
  let owner : string := match current w with A => "A" | B => "B" end in
  let roster g := match current w with A => piecesA g | B => piecesB g end in
  let other g := match current w with A => piecesB g | B => piecesA g end in
  exists w',
    handleSetup s w = Ok tt w' /\
    length (roster (gameState w')) = length s /\
    (forall i piece, s !! i = Some piece ->
       roster (gameState w') !! i = Some (mkPiece piece home (Z.of_nat i)) /\
       cellAt (board (gameState w')) home (Z.of_nat i)
         = Some (Some (owner ++ "-" ++ piece))) /\
    other (gameState w') = other (gameState w) /\
    (piecesA (gameState w') <> [] /\ piecesB (gameState w') <> [] -> current w' = A) /\
    (piecesA (gameState w') = [] \/ piecesB (gameState w') = [] ->
     current w' = match current w with A => B | B => A end).
Proof.
  intros H5 Hempty home owner roster other.
  destruct (fiveRows_home w (current w) H5) as [r Hr].
  assert (Hempty' : pieces (current w) (gameState w) = [])
    by (unfold pieces, current in *; by destruct (currentPlayer (gameState w))).
  eexists. split; [apply (handleSetup_run w s r Hempty' Hr) |].
  pose proof (afterSetup_pieces (gameState w) s r) as Hp.
  pose proof (afterSetup_other (gameState w) s r) as Ho.
  pose proof (afterSetup_home (gameState w) s r Hr) as Hh.
  pose proof (afterSetup_turn (gameState w) s r) as [Ht1 Ht2].
  assert (Hroster : roster (afterSetup (gameState w) s r)
                    = placedRoster (currentPlayer (gameState w)) s)
    by (subst roster; unfold current, pieces in *; by destruct (currentPlayer (gameState w))).
  subst home owner other. unfold current in *. cbn [gameState].
  split; [rewrite Hroster; unfold placedRoster; by rewrite length_imap |].
  split; [| split; [by destruct (currentPlayer (gameState w)) | by split]].
  intros i piece Hi. split.
  - rewrite Hroster. unfold placedRoster. rewrite list_lookup_imap, Hi.
    by destruct (currentPlayer (gameState w)).
  - assert (Hcell : cellAt (board (afterSetup (gameState w) s r))
                      (homeRow (currentPlayer (gameState w))) (Z.of_nat i)
                    = Some (Some (label (currentPlayer (gameState w)) piece))).
    { unfold cellAt. rewrite Hh.
      destruct (Z.ltb_spec (homeRow (currentPlayer (gameState w))) 0) as [Hneg|_];
        [by destruct (currentPlayer (gameState w)) |].
      destruct (Z.ltb_spec (Z.of_nat i) 0); [lia |].
      rewrite Nat2Z.id. f_equal. apply (placedRow_get _ s 0 r i piece Hi). }
    by destruct (currentPlayer (gameState w)).
Qed.

(** Three setups: A first (row 0, turn to B); B after A (row 4, both
    rosters filled, turn to A); A after B, A having passed with an empty
    setup (both rosters filled, turn stays with A instead of going to B). *)
Lemma handleSetup_places_witness :
  (exists w',
     handleSetup ["P1"; "P2"; "H1"] initialWorld = Ok tt w' /\
     length (piecesA (gameState w')) = 3%nat /\
     (forall i piece, ["P1"; "P2"; "H1"] !! i = Some piece ->
        piecesA (gameState w') !! i = Some (mkPiece piece 0 (Z.of_nat i)) /\
        cellAt (board (gameState w')) 0 (Z.of_nat i) = Some (Some ("A" ++ "-" ++ piece))) /\
     piecesB (gameState w') = [] /\
     (piecesA (gameState w') <> [] /\ piecesB (gameState w') <> [] -> current w' = A) /\
     (piecesA (gameState w') = [] \/ piecesB (gameState w') = [] -> current w' = B)) /\
  (exists w',
     handleSetup ["P1"; "H1"] Scenario.firstSetup = Ok tt w' /\
     length (piecesB (gameState w')) = 2%nat /\
     (forall i piece, ["P1"; "H1"] !! i = Some piece ->
        piecesB (gameState w') !! i = Some (mkPiece piece 4 (Z.of_nat i)) /\
        cellAt (board (gameState w')) 4 (Z.of_nat i) = Some (Some ("B" ++ "-" ++ piece))) /\
     piecesA (gameState w') = [mkPiece "P1" 0 0] /\
     (piecesA (gameState w') <> [] /\ piecesB (gameState w') <> [] -> current w' = A) /\
     (piecesA (gameState w') = [] \/ piecesB (gameState w') = [] -> current w' = A)) /\
  (exists w',
     handleSetup ["H1"] (worldAfter [Setup []; Setup ["P1"]]) = Ok tt w' /\
     length (piecesA (gameState w')) = 1%nat /\
     (forall i piece, ["H1"] !! i = Some piece ->
        piecesA (gameState w') !! i = Some (mkPiece piece 0 (Z.of_nat i)) /\
        cellAt (board (gameState w')) 0 (Z.of_nat i) = Some (Some ("A" ++ "-" ++ piece))) /\
     piecesB (gameState w') = [mkPiece "P1" 4 0] /\
     (piecesA (gameState w') <> [] /\ piecesB (gameState w') <> [] -> current w' = A) /\
     (piecesA (gameState w') = [] \/ piecesB (gameState w') = [] -> current w' = B)).
Proof.
  split; [| split].
  - apply (handleSetup_places initialWorld ["P1"; "P2"; "H1"]); reflexivity.
  - apply (handleSetup_places Scenario.firstSetup ["P1"; "H1"]); reflexivity.
  - apply (handleSetup_places (worldAfter [Setup []; Setup ["P1"]]) ["H1"]); reflexivity.
Defined.

(** C9: an empty setup by a player X whose roster is empty is accepted: the
    current player becomes B when X is A and A when X is B, the update is
    broadcast, and board, both rosters and log are as they were; X's roster
    being still empty, the guard against a repeated setup lets a later setup
    of X through. *)
Theorem empty_setup_accepted (w : World) :
  pieces (current w) (gameState w) = [] ->
  exists w',
    handleSetup [] w = Ok tt w' /\
    ~ Rejected w w' /\
    current w' = match current w with A => B | B => A end /\
    board (gameState w') = board (gameState w) /\
    piecesA (gameState w') = piecesA (gameState w) /\
    piecesB (gameState w') = piecesB (gameState w) /\
    moveHistory w' = moveHistory w /\
    pieces (current w) (gameState w') = [] /\
    forall s w2, fiveRows w2 -> current w2 = current w ->
      pieces (current w) (gameState w2) = pieces (current w) (gameState w') ->
      exists w3, handleSetup s w2 = Ok tt w3 /\ ~ Rejected w2 w3 /\
                 pieces (current w) (gameState w3) = placedRoster (current w) s.
Proof.
  intros Hempty.
  assert (Hrun : handleSetup [] w =
    Ok tt (mkWorld (withCurrent (otherPlayer (current w)) (gameState w)) (moveHistory w)
             (outbox w ++ [Broadcast (MUpdate
                (withCurrent (otherPlayer (current w)) (gameState w)))]))).
  { destruct w as [[b pa pb cur] h o]. unfold current in *.
    unfold handleSetup, mbind, M_bind, getGame, modifyGame, broadcast, emit,
      mret, M_ret.
    destruct cur; cbn in Hempty |- *; subst; cbn;
      rewrite ?andb_false_r; reflexivity. }
  eexists. split; [exact Hrun |]. cbn [gameState outbox moveHistory].
  split; [eapply (broadcast_not_rejected _ _ []); reflexivity |].
  split; [unfold current; cbn; by destruct (currentPlayer (gameState w)) |].
  do 4 (split; [reflexivity |]).
  assert (Hstill : pieces (current w)
            (withCurrent (otherPlayer (current w)) (gameState w)) = []).
  { unfold current in *. by destruct (currentPlayer (gameState w)). }
  split; [exact Hstill |].
  intros s w2 H5 Hcur Hsame. rewrite Hstill in Hsame. rewrite <- Hcur in *.
  destruct (fiveRows_home w2 (current w2) H5) as [r Hr].
  eexists. split; [apply (handleSetup_run w2 s r Hsame Hr) |]. cbn [gameState outbox].
  split; [eapply (broadcast_not_rejected _ _ []); reflexivity |].
  apply afterSetup_pieces.
Qed.

(** An empty setup by A as the very first command (the turn goes to B), and
    an empty setup by B after A's setup (the turn goes to A). *)
Lemma empty_setup_accepted_witness :
  (exists w',
     handleSetup [] initialWorld = Ok tt w' /\
     ~ Rejected initialWorld w' /\
     current w' = B /\
     board (gameState w') = board (gameState initialWorld) /\
     piecesA (gameState w') = [] /\
     piecesB (gameState w') = [] /\
     moveHistory w' = [] /\
     pieces A (gameState w') = [] /\
     forall s w2, fiveRows w2 -> current w2 = A ->
       pieces A (gameState w2) = pieces A (gameState w') ->
       exists w3, handleSetup s w2 = Ok tt w3 /\ ~ Rejected w2 w3 /\
                  pieces A (gameState w3) = placedRoster A s) /\
  (exists w',
     handleSetup [] Scenario.firstSetup = Ok tt w' /\
     ~ Rejected Scenario.firstSetup w' /\
     current w' = A /\
     board (gameState w') = board (gameState Scenario.firstSetup) /\
     piecesA (gameState w') = [mkPiece "P1" 0 0] /\
     piecesB (gameState w') = [] /\
     moveHistory w' = [] /\
     pieces B (gameState w') = [] /\
     forall s w2, fiveRows w2 -> current w2 = B ->
       pieces B (gameState w2) = pieces B (gameState w') ->
       exists w3, handleSetup s w2 = Ok tt w3 /\ ~ Rejected w2 w3 /\
                  pieces B (gameState w3) = placedRoster B s).
Proof.
  split.
  - apply (empty_setup_accepted initialWorld). reflexivity.
  - apply (empty_setup_accepted Scenario.firstSetup). reflexivity.
Defined.



(** ** Moves *)

Lemma quiet_refl w : quiet w w.
Proof. repeat split. Qed.

Lemma quiet_trans a b c : quiet a b -> quiet b c -> quiet a c.
Proof.
  unfold quiet, sameTurn, sameOutbox, sameHistory, sameRowCount.
  intros (? & ? & ? & ?) (? & ? & ? & ?). repeat split; congruence.
Qed.

Lemma quiet_write x y v : keeps quiet (writeCell x y v).
Proof.
  intros w u w' H. unfold writeCell, setCell in H.
  destruct (x <? 0); [discriminate |].
  destruct (board (gameState w) !! Z.to_nat x); [| discriminate].
  injection H as _ <-. repeat split.
  unfold sameRowCount. cbn. apply length_insert.
Qed.

Lemma quiet_roster p f : keeps quiet (modifyGame (fun g => withPieces p (f g) g)).
Proof.
  intros w u w' H. injection H as _ <-.
  repeat split; unfold sameTurn, sameRowCount, current; cbn; by destruct p.
Qed.

(** What [processMove] does around the move proper: nothing when it returns
    false, one log entry and one [moveHistory] broadcast when it returns
    true. *)
Lemma processMove_inv player character move w moved w' :
  processMove player character move w = Ok moved w' ->
  exists w1, quiet w w1 /\
    w' = if moved
         then mkWorld (gameState w1)
                (moveHistory w ++ [moveDesc player character move])
                (outbox w ++
                   [Broadcast (MMoveHistory
                      (moveHistory w ++ [moveDesc player character move]))])
         else w1.
Proof.
  unfold processMove. intros H.
  apply bind_Ok in H as (g & w0 & Eg & H). injection Eg as _ <-.
  destruct (scanFrom _ _ _ _) as [[from|]|]; [| | discriminate].
  - apply bind_Ok in H as (b & w1 & Ea & H).
    pose proof (keeps_attempt quiet quiet_refl quiet_trans quiet_write quiet_roster
                  player character move from _ _ _ Ea) as Hq.
    exists w1. split; [exact Hq |].
    destruct Hq as (_ & Ho & Hh & _). unfold sameOutbox, sameHistory in *.
    destruct b.
    + unfold mbind, M_bind, getHistory, putHistory, broadcast, emit, mret, M_ret in H.
      cbn in H. injection H as <- <-. by rewrite Ho, Hh.
    + injection H as <- <-. reflexivity.
  - injection H as <- <-. exists w. split; [apply quiet_refl | reflexivity].
Qed.

(** The four ways [handleMove] can return. *)
Lemma handleMove_inv character move w w' :
  handleMove character move w = Ok tt w' ->
  (findPiece (current w) character (gameState w) = None /\
   w' = mkWorld (gameState w) (moveHistory w)
          (outbox w ++ [Send (MError "Invalid character.")])) \/
  (exists w1, processMove (current w) character move w = Ok false w1 /\
   w' = mkWorld (gameState w1) (moveHistory w1)
          (outbox w1 ++ [Send (MError "Invalid move.")])) \/
  (exists w1, processMove (current w) character move w = Ok true w1 /\
   (pieces A (gameState w1) = [] \/ pieces B (gameState w1) = []) /\
   w' = mkWorld freshGame []
          (outbox w1 ++
             [Broadcast (MEnd (if nonEmpty (piecesA (gameState w1)) then A else B))])) \/
  (exists w1, processMove (current w) character move w = Ok true w1 /\
   pieces A (gameState w1) <> [] /\ pieces B (gameState w1) <> [] /\
   w' = mkWorld (withCurrent (otherPlayer (current w)) (gameState w1)) (moveHistory w1)
          (outbox w1 ++
             [Broadcast (MUpdate (withCurrent (otherPlayer (current w)) (gameState w1)));
              Broadcast (MMoveHistory (moveHistory w1))])).
Proof.
  unfold handleMove, current. intros H.
  apply bind_Ok in H as (g & w0 & Eg & H). injection Eg as <- <-.
  destruct (findPiece _ _ _) as [p|].
  2:{ left. split; [reflexivity |]. injection H as <-. reflexivity. }
  right. apply bind_Ok in H as (valid & w1 & Ep & H). destruct valid; cbn [negb] in H.
  2:{ left. exists w1. split; [exact Ep |]. injection H as <-. reflexivity. }
  right. apply bind_Ok in H as (g1 & w1' & Eg & H). injection Eg as <- <-.
  destruct (gameState w1) as [b pa pb cur] eqn:Eg1. cbn [piecesA piecesB pieces] in *.
  destruct pa as [|a pa]; [| destruct pb as [|b' pb]]; cbn in H; injection H as <-.
  - left. exists w1. rewrite Eg1. cbn.
    split; [exact Ep | split; [by left | reflexivity]].
  - left. exists w1. rewrite Eg1. cbn.
    split; [exact Ep | split; [by right | reflexivity]].
  - right. exists w1. rewrite Eg1. cbn.
    repeat split; try discriminate; [exact Ep |].
    by rewrite <- app_assoc.
Qed.

(** C5 (amended): when an accepted move leaves a roster empty, the command
    broadcasts the move history and then the end event, naming B the winner
    if A's roster is empty and A otherwise (so the owner of the non-empty
    roster, when there is one); the match is reinitialized to the fresh game
    with an empty log, and the end broadcast is the last message: no update
    broadcast follows it. *)
Theorem win_ends_with_end_broadcast (w w1 : World) (character move : string) (p : Piece) :
  findPiece (current w) character (gameState w) = Some p ->
  processMove (current w) character move w = Ok true w1 ->
  pieces A (gameState w1) = [] \/ pieces B (gameState w1) = [] ->
  let winner := if nonEmpty (piecesA (gameState w1)) then A else B in
  handleMove character move w =
    Ok tt (mkWorld freshGame []
             (outbox w ++ [Broadcast (MMoveHistory (moveHistory w1));
                           Broadcast (MEnd winner)])) /\
  pieces (otherPlayer winner) (gameState w1) = [] /\
  (pieces A (gameState w1) <> [] \/ pieces B (gameState w1) <> [] ->
   pieces winner (gameState w1) <> []).
Proof.
  intros Hfind Hmove Hempty winner.
  destruct (processMove_inv _ _ _ _ _ _ Hmove) as (w0 & _ & Ew1).
  assert (Hout : outbox w1 = (outbox w ++ [Broadcast (MMoveHistory (moveHistory w1))])%list)
    by (rewrite Ew1; reflexivity).
  split.
  - unfold handleMove, current in *.
    rewrite (bind_run getGame _ w (gameState w) w eq_refl), Hfind.
    rewrite (bind_run _ _ _ _ _ Hmove). cbn [negb].
    rewrite (bind_run getGame _ w1 (gameState w1) w1 eq_refl).
    subst winner. unfold mbind, M_bind, broadcast, emit, initializeGame. cbn.
    destruct Hempty as [E|E]; cbn in E; rewrite E; cbn;
      [| destruct (piecesA (gameState w1)); cbn];
      rewrite Hout, <- app_assoc; reflexivity.
  - subst winner. cbn [pieces] in *.
    destruct (piecesA (gameState w1)) as [|a pa] eqn:EA; cbn.
    + split; [exact EA |]. intros [H|H]; [contradiction | exact H].
    + destruct Hempty as [E|E]; [discriminate |].
      split; [exact E | rewrite EA; discriminate].
Qed.

(** A's hero takes B's last piece. *)
Lemma win_ends_with_end_broadcast_witness :
  handleMove "A-H1" "F" Scenario.lastPieceLeft =
    Ok tt (mkWorld freshGame []
             (outbox Scenario.lastPieceLeft ++
                [Broadcast (MMoveHistory (moveHistory Scenario.lastPieceTaken));
                 Broadcast (MEnd A)])) /\
  pieces B (gameState Scenario.lastPieceTaken) = [] /\
  (pieces A (gameState Scenario.lastPieceTaken) <> [] \/
   pieces B (gameState Scenario.lastPieceTaken) <> [] ->
   pieces A (gameState Scenario.lastPieceTaken) <> []).
Proof.
  apply (win_ends_with_end_broadcast Scenario.lastPieceLeft Scenario.lastPieceTaken
           "A-H1" "F" (mkPiece "H1" 0 0)).
  - vm_compute. reflexivity.
  - vm_compute. reflexivity.
  - right. vm_compute. reflexivity.
Defined.

Lemma last_snoc2 {T} (pre : list T) (a b : T) : last (pre ++ [a; b]) = Some b.
Proof. by rewrite (last_app_cons pre [b] a). Qed.

(** C5, as the specification states it, fails for the move that takes B's
    last piece: the end broadcast is the last message, no update follows. *)
Lemma end_not_followed_by_update :
  stateAfter Scenario.endgame = Some Scenario.lastPieceLeft /\
  ~ EndFollowedByUpdate Scenario.lastPieceLeft "A-H1" "F".
Proof.
  split; [vm_compute; reflexivity |]. intros H.
  assert (Hm : processMove (current Scenario.lastPieceLeft) "A-H1" "F"
                 Scenario.lastPieceLeft = Ok true Scenario.lastPieceTaken)
    by (vm_compute; reflexivity).
  assert (Hh : handleMove "A-H1" "F" Scenario.lastPieceLeft =
                 Ok tt (worldAfter (Scenario.endgame ++ [Move "A-H1" "F"])))
    by (vm_compute; reflexivity).
  destruct (H _ _ Hm (or_intror eq_refl) Hh) as (_ & pre & winner & E).
  apply (f_equal last) in E. rewrite last_snoc2 in E.
  vm_compute in E. discriminate E.
Qed.

(** ** Turn order *)

(** The two ways [handleSetup] can return. *)
Lemma handleSetup_inv s w w' :
  handleSetup s w = Ok tt w' ->
  (pieces (current w) (gameState w) <> [] /\
   w' = mkWorld (gameState w) (moveHistory w)
          (outbox w ++ [Send (MError "Setup already completed.")])) \/
  (pieces (current w) (gameState w) = [] /\
   exists ps w1, placePieces (current w) 0 s w = Ok ps w1 /\
     board (gameState w') = board (gameState w1) /\
     exists m, outbox w' = (outbox w ++ [Broadcast m])%list).
Proof.
  unfold handleSetup, current. intros H.
  apply bind_Ok in H as (g & w0 & Eg & H). injection Eg as <- <-.
  destruct (pieces _ _) as [|p l] eqn:Ep.
  - right. split; [reflexivity |]. rewrite nonEmpty_nil in H.
    apply bind_Ok in H as (ps & w1 & Eps & H). exists ps, w1. split; [exact Eps |].
    pose proof (keeps_placePieces quiet quiet_refl quiet_trans quiet_write
                  _ s 0%nat _ _ _ Eps) as (_ & Ho & _).
    unfold sameOutbox in Ho. rewrite <- Ho.
    unfold mbind, M_bind, modifyGame, getGame, broadcast, emit, mret, M_ret in H.
    cbn -[nonEmpty] in H.
    destruct (_ && _); injection H as <-; cbn;
      (split; [by destruct (currentPlayer (gameState w)) | eexists; reflexivity]).
  - left. split; [discriminate |]. injection H as <-. reflexivity.
Qed.

Lemma resetGame_run w :
  resetGame w = Ok tt (mkWorld freshGame [] (outbox w ++ [Broadcast (MUpdate freshGame)])).
Proof. reflexivity. Qed.

Lemma rejected_keeps_turn c w w' :
  onMessage c w = Ok tt w' -> Rejected w w' -> current w' = current w.
Proof.
  intros H Hrej. destruct c as [s|character move|]; cbn [onMessage] in H.
  - apply handleSetup_inv in H as [[_ ->]|(_ & ps & w1 & _ & _ & m & E)];
      [reflexivity |].
    exfalso. by apply (broadcast_not_rejected w w' [] m).
  - apply handleMove_inv in H
      as [[_ ->]|[(w1 & Hp & ->)|[(w1 & Hp & _ & ->)|(w1 & Hp & _ & _ & ->)]]].
    + reflexivity.
    + apply processMove_inv in Hp as (w0 & (Ht & _) & ->). exact Ht.
    + exfalso. apply processMove_inv in Hp as (w0 & _ & ->).
      eapply (broadcast_not_rejected _ _ [_]); [| exact Hrej].
      cbn. by rewrite <- app_assoc.
    + exfalso. apply processMove_inv in Hp as (w0 & _ & ->).
      eapply (broadcast_not_rejected _ _ [_; _]); [| exact Hrej].
      cbn. by rewrite <- app_assoc.
  - rewrite resetGame_run in H. injection H as <-.
    exfalso. by apply (broadcast_not_rejected _ _ [] (MUpdate freshGame)) in Hrej.
Qed.

(** C8 (amended): the current player changes only when a setup or a move
    is accepted or when the match is reset; a rejected command (setup
    conflict, unknown piece, illegal move) leaves the current player as it
    was. *)
Theorem turn_changes_only_when_accepted_or_reset (c : Command) (w w' : World) :
  onMessage c w = Ok tt w' ->
  (Rejected w w' -> current w' = current w) /\
  (current w' <> current w -> c = Reset \/ AcceptedSetupOrMove c w w').
Proof.
  intros H. split; [apply (rejected_keeps_turn c w w' H) |].
  intros Hchg. destruct c as [s|character move|]; [right | right | by left].
  - split; [left; by exists s |]. intros Hrej.
    apply Hchg, (rejected_keeps_turn _ _ _ H Hrej).
  - split; [right; by exists character, move |]. intros Hrej.
    apply Hchg, (rejected_keeps_turn _ _ _ H Hrej).
Qed.

(** A rejected hero move: the turn stays with A. *)
Lemma turn_changes_only_when_accepted_or_reset_witness :
  (Rejected Scenario.heroAtEdge Scenario.heroBounced ->
   current Scenario.heroBounced = current Scenario.heroAtEdge) /\
  (current Scenario.heroBounced <> current Scenario.heroAtEdge ->
   Move "A-H1" "F" = Reset \/
   AcceptedSetupOrMove (Move "A-H1" "F") Scenario.heroAtEdge Scenario.heroBounced).
Proof.
  apply (turn_changes_only_when_accepted_or_reset
           (Move "A-H1" "F") Scenario.heroAtEdge Scenario.heroBounced).
  vm_compute. reflexivity.
Defined.

(** C8, as the specification states it, fails for a reset sent when it is
    B's turn: the current player goes back to A although the command is
    neither a setup nor a move. *)
Lemma reset_changes_turn :
  stateAfter [Setup ["P1"]] = Some Scenario.firstSetup /\
  ~ TurnChangesOnlyBySetupOrMove Reset Scenario.firstSetup.
Proof.
  split; [vm_compute; reflexivity |]. intros H.
  destruct (H _ (resetGame_run _)) as [Hchg _].
  destruct Hchg as [[[s Hs]|(character & move & Hm)] _]; discriminate.
Qed.

(** ** Reachable worlds *)

Lemma run_Reachable cs : forall w w',
  Reachable w -> run cs w = Ok tt w' -> Reachable w'.
Proof.
  induction cs as [|c rest IH]; intros w w' Hw H; cbn [run] in H.
  - injection H as <-. exact Hw.
  - apply bind_Ok in H as ([] & w1 & Hc & H).
    eapply IH; [eapply reach_step; eassumption | exact H].
Qed.

Lemma stateAfter_Reachable cs w : stateAfter cs = Some w -> Reachable w.
Proof.
  unfold stateAfter. destruct (run cs initialWorld) as [[] w1|] eqn:E; [| discriminate].
  intros [= <-]. eapply run_Reachable; [apply reach_init | exact E].
Qed.

(** The board of a reachable world has its five rows, which is what the
    setup theorems ask of the world they start in. *)
Lemma Reachable_fiveRows w : Reachable w -> fiveRows w.
Proof.
  induction 1 as [|c w w' _ IH H]; [reflexivity |].
  unfold fiveRows in *. destruct c as [s|character move|]; cbn [onMessage] in H.
  - apply handleSetup_inv in H as [[_ ->]|(_ & ps & w1 & Eps & -> & _)]; [exact IH |].
    pose proof (keeps_placePieces quiet quiet_refl quiet_trans quiet_write
                  _ s 0%nat _ _ _ Eps) as (_ & _ & _ & Hr).
    unfold sameRowCount in Hr. congruence.
  - apply handleMove_inv in H
      as [[_ ->]|[(w1 & Hp & ->)|[(w1 & Hp & _ & ->)|(w1 & Hp & _ & _ & ->)]]];
      [exact IH | | reflexivity |];
      apply processMove_inv in Hp as (w0 & (_ & _ & _ & Hr) & ->);
      unfold sameRowCount in Hr; cbn; congruence.
  - rewrite resetGame_run in H. injection H as <-. reflexivity.
Qed.

(** ** Pawn moves in general *)

(** Whatever [capturePiece] finds at its position, the cell is falsy when
    it returns. *)
Lemma capturePiece_leaves_falsy x y w w' :
  0 <= y ->
  capturePiece x y w = Ok tt w' ->
  exists c, cellAt (board (gameState w')) x y = Some c /\ truthy c = false.
Proof.
  unfold capturePiece. intros Hy H.
  apply bind_Ok in H as (c & w0 & Er & H). unfold readCell in Er.
  destruct (cellAt (board (gameState w)) x y) as [c0|] eqn:Ec; [| discriminate].
  injection Er as <- <-. destruct (truthy c0) eqn:Et.
  - destruct (ownerOf c0) as [player|]; [| discriminate].
    apply bind_Ok in H as ([] & w1 & Em & H). injection Em as <-.
    unfold writeCell in H. cbn in H.
    destruct (setCell _ x y None) as [b'|] eqn:Es; [| discriminate].
    injection H as <-. cbn. exists None. split; [| reflexivity].
    assert (Hb : board (withPieces player
                   (filter (fun p => row p ≠ x ∨ col p ≠ y)
                      (pieces player (gameState w))) (gameState w))
                 = board (gameState w)) by (by destruct player).
    rewrite Hb in Es. rewrite (cellAt_setCell _ _ _ _ _ x y Es Hy Hy).
    destruct (decide _) as [_|Hne]; [reflexivity | exfalso; by apply Hne].
  - injection H as <-. exists c0. by split.
Qed.

(** The defect behind C1 and C2, for every world: an accepted pawn move
    never leaves the pawn on its destination, because [capturePiece] runs
    on the destination after the pawn has been written there. *)
Lemma movePawn_leaves_destination_falsy from to w w' :
  0 <= to.2 ->
  movePawn from to w = Ok true w' ->
  exists c, cellAt (board (gameState w')) to.1 to.2 = Some c /\ truthy c = false.
Proof.
  unfold movePawn. destruct to as [x y]. cbn [fst snd]. intros Hy H.
  apply bind_Ok in H as (c & w0 & _ & H).
  apply bind_Ok in H as (g & w1 & _ & H).
  destruct (ownedBy c _); [discriminate |].
  apply bind_Ok in H as (v & w2 & _ & H).
  apply bind_Ok in H as ([] & w3 & _ & H).
  apply bind_Ok in H as ([] & w4 & _ & H).
  apply bind_Ok in H as ([] & w5 & Hc & H).
  injection H as <-. apply (capturePiece_leaves_falsy x y w4 w5 Hy Hc).
Qed.

(** ** The moves on concrete games *)

Lemma rejected_last w w' :
  Rejected w w' -> exists m, last (outbox w') = Some (Send (MError m)).
Proof. intros [m ->]. exists m. apply last_snoc. Qed.

Ltac accepted :=
  let H := fresh in let m := fresh in
  intros H; apply rejected_last in H as [m H]; vm_compute in H; discriminate H.

(** The part of C6 the code does enforce: a name that is in no entry of the
    current player's roster is answered with "Invalid character." and
    nothing else happens. *)
Lemma unknown_piece_rejected w character move :
  findPiece (current w) character (gameState w) = None ->
  handleMove character move w =
    Ok tt (mkWorld (gameState w) (moveHistory w)
             (outbox w ++ [Send (MError "Invalid character.")])).
Proof.
  intros H. unfold handleMove, current in *.
  rewrite (bind_run getGame _ w (gameState w) w eq_refl), H. reflexivity.
Qed.

Lemma Mirrored_pawnsPlaced : Mirrored (gameState Scenario.pawnsPlaced).
Proof.
  split.
  - intros X p Hp.
    destruct X; cbn in Hp; apply list_elem_of_singleton in Hp; subst p; reflexivity.
  - intros r c X n Hc. unfold cellAt in Hc.
    destruct (Z.ltb_spec r 0) as [|Hr]; [discriminate |].
    destruct (Z.to_nat r) as [|[|[|[|[|k]]]]] eqn:Er; cbn in Hc; try discriminate;
      destruct (Z.ltb_spec c 0) as [|Hc0]; try discriminate;
      destruct (Z.to_nat c) as [|[|[|[|[|j]]]]] eqn:Ec; cbn in Hc; try discriminate;
      destruct X; vm_compute in Hc; try discriminate;
      injection Hc as <-;
      (eexists; split; [reflexivity | cbn; lia]).
Qed.

(** C1 (the code breaks it): after both players set up one pawn the board
    and the rosters mirror each other; A's accepted pawn move leads to a
    reachable world in which they do not: A's roster still places the pawn
    on (0,0), a cell that is now empty. *)
Theorem pawn_move_breaks_mirror :
  stateAfter Scenario.pawns = Some Scenario.pawnsPlaced /\
  Mirrored (gameState Scenario.pawnsPlaced) /\
  onMessage (Move "A-P1" "F") Scenario.pawnsPlaced = Ok tt Scenario.pawnMoved /\
  ~ Rejected Scenario.pawnsPlaced Scenario.pawnMoved /\
  Reachable Scenario.pawnMoved /\
  ~ Mirrored (gameState Scenario.pawnMoved).
Proof.
  split; [vm_compute; reflexivity |].
  split; [apply Mirrored_pawnsPlaced |].
  split; [vm_compute; reflexivity |].
  split; [accepted |].
  split.
  - apply (stateAfter_Reachable (Scenario.pawns ++ [Move "A-P1" "F"])).
    vm_compute. reflexivity.
  - intros [Hroster _].
    specialize (Hroster A (mkPiece "P1" 0 0)).
    assert (Hin : mkPiece "P1" 0 0 ∈ pieces A (gameState Scenario.pawnMoved))
      by (cbn; apply list_elem_of_singleton; reflexivity).
    apply Hroster in Hin. vm_compute in Hin. discriminate Hin.
Qed.

(** C2 (the code breaks it): B's pawn at (4,0) moves FL onto A's hero at
    (3,1) and the move is accepted; afterwards the destination (3,1) is
    empty instead of holding the pawn, and the captured hero is still in
    A's roster.  Only the origin is as the claim says. *)
Theorem pawn_capture_loses_the_pawn :
  stateAfter Scenario.approach = Some Scenario.pawnFacesHero /\
  current Scenario.pawnFacesHero = B /\
  cellAt (board (gameState Scenario.pawnFacesHero)) 4 0 = Some (Some "B-P1") /\
  cellAt (board (gameState Scenario.pawnFacesHero)) 3 1 = Some (Some "A-H1") /\
  onMessage (Move "B-P1" "FL") Scenario.pawnFacesHero = Ok tt Scenario.pawnTookHero /\
  ~ Rejected Scenario.pawnFacesHero Scenario.pawnTookHero /\
  cellAt (board (gameState Scenario.pawnTookHero)) 4 0 = Some None /\
  cellAt (board (gameState Scenario.pawnTookHero)) 3 1 = Some None /\
  pieces A (gameState Scenario.pawnTookHero) = [mkPiece "H1" 0 0].
Proof.
  repeat (split; [first [accepted | vm_compute; reflexivity] |]).
  vm_compute. reflexivity.
Qed.

(** C3 (the code breaks it): A's hero at (0,0) moves F and the move is
    accepted; the hero ends on (1,0), one step from its origin, and the
    final cell (2,0) of the two-step projection stays empty. *)
Theorem hero_lands_after_one_step :
  stateAfter Scenario.heroes = Some Scenario.heroesPlaced /\
  cellAt (board (gameState Scenario.heroesPlaced)) 0 0 = Some (Some "A-H1") /\
  onMessage (Move "A-H1" "F") Scenario.heroesPlaced = Ok tt Scenario.heroMoved /\
  ~ Rejected Scenario.heroesPlaced Scenario.heroMoved /\
  cellAt (board (gameState Scenario.heroMoved)) 0 0 = Some None /\
  cellAt (board (gameState Scenario.heroMoved)) 1 0 = Some (Some "A-H1") /\
  cellAt (board (gameState Scenario.heroMoved)) 2 0 = Some None.
Proof.
  repeat (split; [first [accepted | vm_compute; reflexivity] |]).
  vm_compute. reflexivity.
Qed.

(** C4 (the code breaks it): A's hero at (3,1) moves F towards B's pawn at
    (4,1); the second step leaves the board and the move is rejected with
    "Invalid move.", yet the pawn has been taken off the board and out of
    B's roster. *)
Theorem rejected_hero_move_captures :
  stateAfter Scenario.edge = Some Scenario.heroAtEdge /\
  cellAt (board (gameState Scenario.heroAtEdge)) 3 1 = Some (Some "A-H1") /\
  cellAt (board (gameState Scenario.heroAtEdge)) 4 1 = Some (Some "B-P2") /\
  pieces B (gameState Scenario.heroAtEdge)
    = [mkPiece "P1" 4 0; mkPiece "P2" 4 1; mkPiece "H1" 4 2] /\
  onMessage (Move "A-H1" "F") Scenario.heroAtEdge = Ok tt Scenario.heroBounced /\
  outbox Scenario.heroBounced
    = (outbox Scenario.heroAtEdge ++ [Send (MError "Invalid move.")])%list /\
  Rejected Scenario.heroAtEdge Scenario.heroBounced /\
  cellAt (board (gameState Scenario.heroBounced)) 3 1 = Some (Some "A-H1") /\
  cellAt (board (gameState Scenario.heroBounced)) 4 1 = Some None /\
  pieces B (gameState Scenario.heroBounced) = [mkPiece "P1" 4 0; mkPiece "H1" 4 2] /\
  gameState Scenario.heroBounced <> gameState Scenario.heroAtEdge.
Proof.
  repeat (split;
    [first [vm_compute; reflexivity
           | exists "Invalid move."; vm_compute; reflexivity] |]).
  intros E. apply (f_equal piecesB) in E. vm_compute in E. discriminate E.
Qed.

(** C6 (the code breaks it): it is A's turn and both rosters hold a piece
    named H1; A's command for the label "B-H1" is accepted and relocates
    B's hero from (4,0) to (3,0), A's own hero staying where it was. *)
Theorem opponent_piece_is_moved :
  stateAfter Scenario.heroes = Some Scenario.heroesPlaced /\
  current Scenario.heroesPlaced = A /\
  findPiece A "B-H1" (gameState Scenario.heroesPlaced) = Some (mkPiece "H1" 0 0) /\
  cellAt (board (gameState Scenario.heroesPlaced)) 4 0 = Some (Some "B-H1") /\
  onMessage (Move "B-H1" "B") Scenario.heroesPlaced = Ok tt Scenario.enemyHeroMoved /\
  ~ Rejected Scenario.heroesPlaced Scenario.enemyHeroMoved /\
  cellAt (board (gameState Scenario.enemyHeroMoved)) 4 0 = Some None /\
  cellAt (board (gameState Scenario.enemyHeroMoved)) 3 0 = Some (Some "B-H1") /\
  cellAt (board (gameState Scenario.enemyHeroMoved)) 0 0 = Some (Some "A-H1").
Proof.
  repeat (split; [first [accepted | vm_compute; reflexivity] |]).
  vm_compute. reflexivity.
Qed.

(** ** The handlers never throw on well-formed commands *)

Lemma ownerOf_label X n : ownerOf (Some (label X n)) = Some X.
Proof. by destruct X. Qed.

Lemma truthy_label X n : truthy (Some (label X n)) = true.
Proof. by destruct X. Qed.

Lemma okCell_owner c : okCell c -> truthy c = true -> is_Some (ownerOf c).
Proof.
  intros [->|(X & n & ->)] Ht; [discriminate |]. rewrite ownerOf_label. by eexists.
Qed.

Lemma cellAt_row b (x y : Z) :
  0 <= x < Z.of_nat (length b) -> is_Some (cellAt b x y).
Proof.
  intros Hx. unfold cellAt. destruct (Z.ltb_spec x 0); [lia |].
  destruct (lookup_lt_is_Some_2 b (Z.to_nat x)) as [r ->]; [lia | by eexists].
Qed.

Lemma cellAt_negative b x y c : y < 0 -> cellAt b x y = Some c -> c = None.
Proof.
  unfold cellAt. intros Hy H. destruct (x <? 0); [discriminate |].
  destruct (b !! Z.to_nat x); [| discriminate].
  destruct (Z.ltb_spec y 0); [congruence | lia].
Qed.

Lemma setCell_row b (x y : Z) v :
  0 <= x < Z.of_nat (length b) ->
  exists b', setCell b x y v = Some b' /\ length b' = length b.
Proof.
  intros Hx. unfold setCell. destruct (Z.ltb_spec x 0); [lia |].
  destruct (lookup_lt_is_Some_2 b (Z.to_nat x)) as [r ->]; [lia |].
  eexists. split; [reflexivity | apply length_insert].
Qed.

Lemma goodBoard_setCell b x y v b' :
  goodBoard b -> 0 <= y -> okCell v -> setCell b x y v = Some b' -> goodBoard b'.
Proof.
  intros [Hlen Hcells] Hy Hv Hs. split.
  - unfold setCell in Hs. destruct (x <? 0); [discriminate |].
    destruct (b !! Z.to_nat x); [| discriminate]. injection Hs as <-.
    by rewrite length_insert.
  - intros x' y' c Hc. destruct (Z.lt_ge_cases y' 0) as [Hn|Hp].
    + left. by apply (cellAt_negative b' x' y').
    + rewrite (cellAt_setCell _ _ _ _ _ x' y' Hs Hy Hp) in Hc.
      destruct (decide _); [congruence | by apply (Hcells x' y')].
Qed.

Lemma readCell_good w x y :
  goodWorld w -> 0 <= x < 5 ->
  exists c, readCell x y w = Ok c w /\ okCell c.
Proof.
  intros [Hlen Hcells] Hx. unfold readCell.
  destruct (cellAt_row (board (gameState w)) x y) as [c Hc]; [lia |].
  rewrite Hc. exists c. split; [reflexivity | by apply (Hcells x y)].
Qed.

Lemma writeCell_good w x y v :
  goodWorld w -> 0 <= x < 5 -> 0 <= y -> okCell v ->
  exists w', writeCell x y v w = Ok tt w' /\ goodWorld w' /\
             currentPlayer (gameState w') = currentPlayer (gameState w).
Proof.
  intros Hg Hx Hy Hv. unfold writeCell.
  destruct (setCell_row (board (gameState w)) x y v) as (b' & Hs & _);
    [destruct Hg as [-> _]; lia |].
  rewrite Hs. eexists. split; [reflexivity |]. split; [| reflexivity].
  apply (goodBoard_setCell _ x y v b' Hg Hy Hv Hs).
Qed.

Lemma capturePiece_good w x y :
  goodWorld w -> 0 <= x < 5 -> 0 <= y ->
  exists w', capturePiece x y w = Ok tt w' /\ goodWorld w'.
Proof.
  intros Hg Hx Hy. unfold capturePiece.
  destruct (readCell_good w x y Hg Hx) as (c & Hr & Hc).
  rewrite (bind_run _ _ _ _ _ Hr). destruct (truthy c) eqn:Ht.
  - destruct (okCell_owner c Hc Ht) as [player ->].
    set (w1 := mkWorld (withPieces player
                  (filter (fun p => row p ≠ x ∨ col p ≠ y) (pieces player (gameState w)))
                  (gameState w)) (moveHistory w) (outbox w)).
    assert (Hg1 : goodWorld w1) by (unfold goodWorld, w1; cbn; by destruct player).
    destruct (writeCell_good w1 x y None Hg1 Hx Hy) as (w' & Hw & Hg' & _); [by left |].
    exists w'. split; [| exact Hg'].
    erewrite bind_run; [exact Hw | reflexivity].
  - exists w. by split.
Qed.

Lemma movePawn_good w from to :
  goodWorld w -> inGrid from -> inGrid to ->
  exists moved w', movePawn from to w = Ok moved w' /\ goodWorld w'.
Proof.
  intros Hg [Hf1 Hf2] [Ht1 Ht2]. unfold movePawn. destruct to as [x y]. cbn [fst snd] in *.
  destruct (readCell_good w x y Hg Ht1) as (c & Hr & _).
  rewrite (bind_run _ _ _ _ _ Hr), (bind_run getGame _ w (gameState w) w eq_refl).
  destruct (ownedBy c _); [exists false, w; by split |].
  destruct (readCell_good w from.1 from.2 Hg Hf1) as (v & Hrv & Hv).
  rewrite (bind_run _ _ _ _ _ Hrv).
  destruct (writeCell_good w x y v Hg Ht1 (proj1 Ht2) Hv) as (w1 & Hw1 & Hg1 & _).
  rewrite (bind_run _ _ _ _ _ Hw1).
  destruct (writeCell_good w1 from.1 from.2 None Hg1 Hf1 (proj1 Hf2)) as (w2 & Hw2 & Hg2 & _);
    [by left |].
  rewrite (bind_run _ _ _ _ _ Hw2).
  destruct (capturePiece_good w2 x y Hg2 Ht1 (proj1 Ht2)) as (w3 & Hw3 & Hg3).
  rewrite (bind_run _ _ _ _ _ Hw3). exists true, w3. by split.
Qed.

Lemma heroPath_good steps fx fy dx dy : forall w,
  goodWorld w ->
  exists ok w', heroPath steps fx fy dx dy w = Ok ok w' /\ goodWorld w'.
Proof.
  induction steps as [|i rest IH]; intros w Hg; cbn [heroPath].
  - exists true, w. by split.
  - destruct (Z.ltb_spec (fx + i * dx) 0); cbn [orb]; [exists false, w; by split |].
    destruct (Z.leb_spec 5 (fx + i * dx)); cbn [orb]; [exists false, w; by split |].
    destruct (Z.ltb_spec (fy + i * dy) 0); cbn [orb]; [exists false, w; by split |].
    destruct (Z.leb_spec 5 (fy + i * dy)); cbn [orb]; [exists false, w; by split |].
    destruct (readCell_good w (fx + i * dx) (fy + i * dy) Hg) as (c & Hr & _); [lia |].
    rewrite (bind_run _ _ _ _ _ Hr), (bind_run getGame _ w (gameState w) w eq_refl).
    destruct (notOwnedBy c _).
    + destruct (capturePiece_good w (fx + i * dx) (fy + i * dy) Hg) as (w1 & Hc & Hg1);
        [lia | lia |].
      rewrite (bind_run _ _ _ _ _ Hc). apply IH, Hg1.
    + erewrite bind_run; [apply IH, Hg | reflexivity].
Qed.

Lemma moveHero1_good w from to :
  goodWorld w -> inGrid from -> inGrid to ->
  exists moved w', moveHero1 from to w = Ok moved w' /\ goodWorld w'.
Proof.
  intros Hg [Hf1 Hf2] [Ht1 Ht2]. unfold moveHero1.
  destruct to as [x y], from as [fx fy]. cbn [fst snd] in *.
  destruct (readCell_good w x y Hg Ht1) as (c & Hr & _).
  rewrite (bind_run _ _ _ _ _ Hr), (bind_run getGame _ w (gameState w) w eq_refl).
  destruct (ownedBy c _); [exists false, w; by split |].
  destruct (heroPath_good [1; 2] fx fy (Z.sgn (x - fx)) (Z.sgn (y - fy)) w Hg)
    as (ok & w1 & Hp & Hg1).
  rewrite (bind_run _ _ _ _ _ Hp). destruct ok; cbn [negb]; [| exists false, w1; by split].
  destruct (readCell_good w1 fx fy Hg1 Hf1) as (v & Hrv & Hv).
  rewrite (bind_run _ _ _ _ _ Hrv).
  destruct (writeCell_good w1 x y v Hg1 Ht1 (proj1 Ht2) Hv) as (w2 & Hw2 & Hg2 & _).
  rewrite (bind_run _ _ _ _ _ Hw2).
  destruct (writeCell_good w2 fx fy None Hg2 Hf1 (proj1 Hf2)) as (w3 & Hw3 & Hg3 & _);
    [by left |].
  rewrite (bind_run _ _ _ _ _ Hw3). exists true, w3. by split.
Qed.

Lemma dispatch_good w character n from to :
  goodWorld w -> nameOf character = Some n -> inGrid from -> inGrid to ->
  exists moved w', dispatch character from to w = Ok moved w' /\ goodWorld w'.
Proof.
  intros Hg Hn Hf Ht. unfold dispatch. rewrite Hn.
  destruct (Js.char0 n) as [ch|]; [| exists false, w; by split].
  destruct (Ascii.eqb_spec ch "P") as [->|NP]; [by apply movePawn_good |].
  destruct (Ascii.eqb_spec ch "H") as [->|NH].
  - destruct (Js.endsWith _ _); by apply moveHero1_good.
  - destruct ch as [[] [] [] [] [] [] [] []];
      first [exists false, w; by split | congruence].
Qed.

Lemma scanFrom_result b character cells : forall init,
  length b = 5%nat -> Forall inGrid cells ->
  exists r, scanFrom b character cells init = Some r /\
    (r = init \/
     exists p, r = Some p /\ p ∈ cells /\ cellAt b p.1 p.2 = Some (Some character)).
Proof.
  induction cells as [|[x y] rest IH]; intros init Hlen Hall; cbn [scanFrom].
  - exists init. split; [reflexivity | by left].
  - apply Forall_cons in Hall as [[Hx Hy] Hall]. cbn [fst snd] in *.
    destruct (cellAt_row b x y) as [c Hc]; [lia |]. rewrite Hc.
    destruct (IH (if bool_decide (c = Some character) then Some (x, y) else init)
                Hlen Hall) as (r & Hr & Hcases).
    exists r. split; [exact Hr |].
    destruct Hcases as [->|(p & -> & Hp & Hcell)].
    + case_bool_decide as Heq; [| by left].
      right. exists (x, y). split; [reflexivity |]. split; [apply list_elem_of_here |].
      cbn. by rewrite Hc, Heq.
    + right. exists p. split; [reflexivity |]. split; [by apply list_elem_of_further | exact Hcell].
Qed.

Lemma scanOrder_inGrid : Forall inGrid scanOrder.
Proof. unfold scanOrder. cbn. repeat constructor; cbn; lia. Qed.

(** The scan of [processMove] in a world with a five-row board: it returns,
    and a cell it returns lies in the grid and holds the label. *)
Lemma scan_good w character :
  goodWorld w ->
  exists r, scanFrom (board (gameState w)) character scanOrder None = Some r /\
    forall from, r = Some from ->
      inGrid from /\
      cellAt (board (gameState w)) from.1 from.2 = Some (Some character).
Proof.
  intros [Hlen _].
  destruct (scanFrom_result (board (gameState w)) character scanOrder None Hlen
              scanOrder_inGrid) as (r & Hr & Hcases).
  exists r. split; [exact Hr |]. intros from ->.
  destruct Hcases as [|(p & [= <-] & Hp & Hcell)]; [discriminate |].
  split; [| exact Hcell].
  by apply (proj1 (Forall_forall _ _) scanOrder_inGrid).
Qed.

Lemma directions_validCode player move :
  validCode move -> exists dr dc, directions player move = Offset dr dc.
Proof.
  unfold validCode, moveCodes. rewrite !elem_of_cons, elem_of_nil.
  intros [->|[->|[->|[->|[->|[->|[->|[->|[]]]]]]]]]; destruct player; by eexists _, _.
Qed.

Lemma crashCode_validCode player character move :
  validCode move -> crashCode player character move = false.
Proof.
  intros H. unfold crashCode.
  by destruct (directions_validCode player move H) as (dr & dc & ->).
Qed.

Lemma dispatchNaN_run character n :
  nameOf character = Some n ->
  dispatchNaN character =
    if hasMoveFunction character then throw else mret false.
Proof.
  intros Hn. unfold dispatchNaN, hasMoveFunction. rewrite Hn.
  destruct (Js.char0 n) as [ch|]; [| reflexivity].
  by destruct ch as [[] [] [] [] [] [] [] []].
Qed.

Lemma offBoard_false to : offBoard to = false -> inGrid to.
Proof.
  unfold offBoard, inGrid. intros H.
  apply orb_false_elim in H as [H H4]. apply orb_false_elim in H as [H H3].
  apply orb_false_elim in H as [H1 H2].
  apply Z.ltb_ge in H1, H3. apply Z.leb_gt in H2, H4. lia.
Qed.

(** What [processMove] comes to in a good world, for a label with a name
    field. *)
Lemma processMove_outcome w player character move n :
  goodWorld w -> nameOf character = Some n ->
  exists r, scanFrom (board (gameState w)) character scanOrder None = Some r /\
    match r with
    | None => processMove player character move w = Ok false w
    | Some from =>
        if crashCode player character move
        then processMove player character move w = Thrown
        else exists moved w',
               processMove player character move w = Ok moved w' /\ goodWorld w'
    end.
Proof.
  intros Hg Hn. destruct (scan_good w character Hg) as (r & Hr & Hfrom).
  exists r. split; [exact Hr |]. unfold processMove.
  rewrite (bind_run getGame _ w (gameState w) w eq_refl), Hr.
  destruct r as [from|]; [| reflexivity].
  destruct (Hfrom from eq_refl) as [Hin _]. unfold crashCode.
  destruct (directions player move) as [dr dc| |].
  - cbv zeta. destruct (offBoard _) eqn:Hoff.
    + exists false, w. by split.
    + destruct (dispatch_good w character n from (from.1 + dr, from.2 + dc) Hg Hn Hin
                  (offBoard_false _ Hoff)) as (moved & w1 & Hd & Hg1).
      rewrite (bind_run _ _ _ _ _ Hd). destruct moved; eexists _, _; (split; [reflexivity |]);
        exact Hg1.
  - rewrite (dispatchNaN_run character n Hn).
    destruct (hasMoveFunction character); [reflexivity |].
    exists false, w. by split.
  - reflexivity.
Qed.

Lemma findPiece_nameOf player character g p :
  findPiece player character g = Some p ->
  exists n, nameOf character = Some n /\ name p = n /\ p ∈ pieces player g.
Proof.
  unfold findPiece. destruct (nameOf character) as [n|]; [| discriminate].
  intros H. exists n. split; [reflexivity |].
  apply find_some in H as [Hin Heq]. apply String.eqb_eq in Heq.
  split; [exact Heq | by apply list_elem_of_In].
Qed.

Lemma goodBoard_empty : goodBoard emptyBoard.
Proof.
  split; [reflexivity |]. intros x y c H. left. unfold cellAt, emptyBoard in H.
  destruct (x <? 0); [discriminate |].
  destruct (_ !! Z.to_nat x) as [r|] eqn:Er; [| discriminate].
  apply lookup_replicate in Er as [-> _]. injection H as <-.
  destruct (y <? 0); [reflexivity |]. unfold Js.arrayGet.
  destruct (_ !! Z.to_nat y) as [v|] eqn:Ev; [| reflexivity].
  destruct (Z.to_nat y) as [|[|[|[|[|k]]]]]; cbn in Ev;
    first [discriminate Ev | by injection Ev as <-].
Qed.

(** [handleMove] in a good world: it returns in a good world, or it throws,
    and then the piece was found in the roster and on the board and the move
    code is one [processMove] throws on. *)
Lemma handleMove_outcome w character move :
  goodWorld w ->
  (exists w', handleMove character move w = Ok tt w' /\ goodWorld w') \/
  (handleMove character move w = Thrown /\
   is_Some (findPiece (current w) character (gameState w)) /\
   (exists from, scanFrom (board (gameState w)) character scanOrder None
                 = Some (Some from)) /\
   crashCode (current w) character move = true).
Proof.
  intros Hg. unfold handleMove, current.
  rewrite (bind_run getGame _ w (gameState w) w eq_refl).
  destruct (findPiece _ _ _) as [p|] eqn:Hf; [| left; eexists; by split].
  destruct (findPiece_nameOf _ _ _ _ Hf) as (n & Hn & _).
  destruct (processMove_outcome w (currentPlayer (gameState w)) character move n Hg Hn)
    as (r & Hr & Hout).
  destruct r as [from|].
  - destruct (crashCode _ _ _) eqn:Hc.
    + right. rewrite (proj1 (bind_Thrown _ _ _) (or_introl Hout)).
      split; [reflexivity |]. split; [by eexists |]. split; [by eexists | reflexivity].
    + left. destruct Hout as (moved & w1 & Hp & Hg1).
      rewrite (bind_run _ _ _ _ _ Hp). destruct moved; cbn [negb]; [| eexists; by split].
      rewrite (bind_run getGame _ w1 (gameState w1) w1 eq_refl).
      destruct (_ || _); eexists; (split; [reflexivity |]);
        [apply goodBoard_empty | exact Hg1].
  - left. rewrite (bind_run _ _ _ _ _ Hout). eexists. by split.
Qed.

Lemma placePieces_good player s : forall index w,
  goodWorld w ->
  exists ps w', placePieces player index s w = Ok ps w' /\ goodWorld w'.
Proof.
  induction s as [|piece rest IH]; intros index w Hg; cbn [placePieces].
  - exists [], w. by split.
  - destruct (writeCell_good w (homeRow player) (Z.of_nat index)
                (Some (label player piece)) Hg) as (w1 & Hw & Hg1 & _);
      [destruct player; cbn; lia | lia | right; by eexists _, _ |].
    rewrite (bind_run _ _ _ _ _ Hw).
    destruct (IH (S index) w1 Hg1) as (tl & w2 & Hp & Hg2).
    rewrite (bind_run _ _ _ _ _ Hp). eexists _, w2. by split.
Qed.

Lemma handleSetup_good w s :
  goodWorld w -> exists w', handleSetup s w = Ok tt w' /\ goodWorld w'.
Proof.
  intros Hg. unfold handleSetup.
  rewrite (bind_run getGame _ w (gameState w) w eq_refl).
  destruct (nonEmpty _); [eexists; by split |].
  destruct (placePieces_good (currentPlayer (gameState w)) s 0%nat w Hg)
    as (ps & w1 & Hp & Hg1).
  rewrite (bind_run _ _ _ _ _ Hp).
  unfold mbind, M_bind, modifyGame, getGame, broadcast, emit, mret, M_ret.
  cbn -[nonEmpty].
  destruct (_ && _); eexists; (split; [reflexivity |]);
    unfold goodWorld in *; cbn; by destruct (currentPlayer (gameState w)).
Qed.

(** Every handler in a good world: it returns in a good world, unless it is
    a move with a code that is no key of [directions]. *)
Lemma onMessage_outcome c w :
  goodWorld w ->
  (exists w', onMessage c w = Ok tt w' /\ goodWorld w') \/
  (onMessage c w = Thrown /\ ~ validCommand c).
Proof.
  intros Hg. destruct c as [s|character move|]; cbn [onMessage validCommand].
  - left. by apply handleSetup_good.
  - destruct (handleMove_outcome w character move Hg) as [H|(Ht & _ & _ & Hc)];
      [by left | right].
    split; [exact Ht |]. intros Hv.
    by rewrite (crashCode_validCode _ _ _ Hv) in Hc.
  - left. rewrite resetGame_run. eexists. split; [reflexivity | apply goodBoard_empty].
Qed.

Lemma Reachable_good w : Reachable w -> goodWorld w.
Proof.
  induction 1 as [|c w w' _ IH H]; [apply goodBoard_empty |].
  destruct (onMessage_outcome c w IH) as [(w1 & H1 & Hg)|[Ht _]]; congruence.
Qed.

(** X1: in every world the server can reach, the board has its five rows
    and each of its cells is empty or holds a label "A-..." or "B-...", the
    string a setup wrote: moves only copy and clear cells. *)
Theorem reachable_cells_hold_setup_labels (w : World) :
  Reachable w ->
  length (board (gameState w)) = 5%nat /\
  forall x y s, cellAt (board (gameState w)) x y = Some (Some s) ->
    exists X n, s = label X n.
Proof.
  intros Hr. destruct (Reachable_good w Hr) as [Hlen Hcells].
  split; [exact Hlen |]. intros x y s Hc.
  destruct (Hcells x y (Some s) Hc) as [|(X & n & [= ->])]; [discriminate |].
  by exists X, n.
Qed.

(** After the hero fight of the endgame scenario. *)
Lemma reachable_cells_hold_setup_labels_witness :
  length (board (gameState Scenario.lastPieceLeft)) = 5%nat /\
  forall x y s,
    cellAt (board (gameState Scenario.lastPieceLeft)) x y = Some (Some s) ->
    exists X n, s = label X n.
Proof.
  apply (reachable_cells_hold_setup_labels Scenario.lastPieceLeft).
  apply (stateAfter_Reachable Scenario.endgame). vm_compute. reflexivity.
Defined.

(** X2: from a reachable world no handler throws on a setup, on a reset, or
    on a move whose code is one of the eight keys of [directions], whatever
    the submitted names and piece label are. *)
Theorem valid_commands_never_throw (w : World) (c : Command) :
  Reachable w -> validCommand c ->
  exists w', onMessage c w = Ok tt w'.
Proof.
  intros Hr Hv.
  destruct (onMessage_outcome c w (Reachable_good w Hr)) as [(w' & H & _)|[_ Hn]];
    [by exists w' | contradiction].
Qed.

(** A move of a piece that is on no roster, sent first. *)
Lemma valid_commands_never_throw_witness :
  exists w', onMessage (Move "A-Q7" "FL") initialWorld = Ok tt w'.
Proof.
  apply (valid_commands_never_throw initialWorld (Move "A-Q7" "FL")).
  - apply reach_init.
  - unfold validCommand, validCode, moveCodes. rewrite !elem_of_cons. tauto.
Defined.

(** X3: from a reachable world, [handleMove] throws exactly when the name
    field of the label is in the current player's roster, the label is in
    a cell of the 5x5 grid, and the move code is no key of [directions],
    an inherited key of [Object.prototype] counting only for the piece
    letters P and H. *)
Theorem handleMove_throws_iff (w : World) (character move : string) :
  Reachable w ->
  handleMove character move w = Thrown <->
  is_Some (findPiece (current w) character (gameState w)) /\
  (exists from, scanFrom (board (gameState w)) character scanOrder None
                = Some (Some from)) /\
  crashCode (current w) character move = true.
Proof.
  intros Hr. pose proof (Reachable_good w Hr) as Hg. split.
  - intros Ht. destruct (handleMove_outcome w character move Hg)
      as [(w' & H & _)|(_ & H)]; [congruence | exact H].
  - intros ([p Hf] & [from Hs] & Hc).
    destruct (findPiece_nameOf _ _ _ _ Hf) as (n & Hn & _).
    destruct (processMove_outcome w (current w) character move n Hg Hn)
      as (r & Hr' & Hout).
    rewrite Hs in Hr'. injection Hr' as <-. rewrite Hc in Hout.
    unfold handleMove, current in *.
    rewrite (bind_run getGame _ w (gameState w) w eq_refl), Hf.
    apply bind_Thrown. by left.
Qed.

(** A pawn told to move "X", and a pawn told to move "toString". *)
Lemma handleMove_throws_iff_witness :
  (handleMove "A-P1" "X" Scenario.pawnsPlaced = Thrown <->
   is_Some (findPiece (current Scenario.pawnsPlaced) "A-P1"
              (gameState Scenario.pawnsPlaced)) /\
   (exists from, scanFrom (board (gameState Scenario.pawnsPlaced)) "A-P1" scanOrder None
                 = Some (Some from)) /\
   crashCode (current Scenario.pawnsPlaced) "A-P1" "X" = true) /\
  handleMove "A-P1" "X" Scenario.pawnsPlaced = Thrown /\
  handleMove "A-P1" "toString" Scenario.pawnsPlaced = Thrown.
Proof.
  split; [| split; vm_compute; reflexivity].
  apply (handleMove_throws_iff Scenario.pawnsPlaced "A-P1" "X").
  apply (stateAfter_Reachable Scenario.pawns). vm_compute. reflexivity.
Defined.

(** ** Rosters under moves *)

Section Capture.

Variable R : World -> World -> Prop.
Hypothesis R_refl : forall w, R w w.
Hypothesis R_trans : forall a b c, R a b -> R b c -> R a c.
Hypothesis R_write : forall x y v, keeps R (writeCell x y v).
Hypothesis R_capture : forall x y, keeps R (capturePiece x y).

Lemma capture_movePawn from to : keeps R (movePawn from to).
Proof.
  unfold movePawn. destruct to as [x y].
  apply keeps_bind; [done | apply keeps_readCell; done | intros c].
  apply keeps_bind; [done | apply keeps_getGame; done | intros g].
  destruct (ownedBy c _); [by apply keeps_ret |].
  apply keeps_bind; [done | apply keeps_readCell; done | intros v].
  apply keeps_bind; [done | apply R_write | intros _].
  apply keeps_bind; [done | apply R_write | intros _].
  apply keeps_bind; [done | apply R_capture | intros _; by apply keeps_ret].
Qed.

Lemma capture_heroPath steps fx fy dx dy : keeps R (heroPath steps fx fy dx dy).
Proof.
  induction steps as [|i rest IH]; cbn [heroPath]; [by apply keeps_ret |].
  destruct (_ || _); [by apply keeps_ret |].
  apply keeps_bind; [done | apply keeps_readCell; done | intros c].
  apply keeps_bind; [done | apply keeps_getGame; done | intros g].
  apply keeps_bind; [done | | intros _; apply IH].
  destruct (notOwnedBy c _); [apply R_capture | by apply keeps_ret].
Qed.

Lemma capture_moveHero1 from to : keeps R (moveHero1 from to).
Proof.
  unfold moveHero1. destruct to as [x y], from as [fx fy].
  apply keeps_bind; [done | apply keeps_readCell; done | intros c].
  apply keeps_bind; [done | apply keeps_getGame; done | intros g].
  destruct (ownedBy c _); [by apply keeps_ret |].
  apply keeps_bind; [done | apply capture_heroPath | intros ok].
  destruct ok; cbn [negb]; [| by apply keeps_ret].
  apply keeps_bind; [done | apply keeps_readCell; done | intros v].
  apply keeps_bind; [done | apply R_write | intros _].
  apply keeps_bind; [done | apply R_write | intros _; by apply keeps_ret].
Qed.

Lemma capture_dispatch character from to : keeps R (dispatch character from to).
Proof.
  unfold dispatch. destruct (nameOf character) as [n|]; [| apply keeps_throw].
  destruct (Js.char0 n) as [ch|]; [| by apply keeps_ret].
  destruct (Ascii.eqb_spec ch "P") as [->|NP]; [apply capture_movePawn |].
  destruct (Ascii.eqb_spec ch "H") as [->|NH].
  - destruct (Js.endsWith _ _); apply capture_moveHero1.
  - destruct ch as [[] [] [] [] [] [] [] []];
      first [by apply keeps_ret | congruence].
Qed.

(** [processMove] as a whole, when [R] also ignores the log and the
    messages. *)
Hypothesis R_history : forall h, keeps R (putHistory h).
Hypothesis R_emit : forall e, keeps R (emit e).

Lemma capture_processMove player character move :
  keeps R (processMove player character move).
Proof.
  unfold processMove.
  apply keeps_bind; [done | apply keeps_getGame; done | intros g].
  destruct (scanFrom _ _ _ _) as [[from|]|];
    [| by apply keeps_ret | apply keeps_throw].
  apply keeps_bind; [done | | intros moved].
  - destruct (directions player move) as [dr dc| |].
    + cbv zeta. destruct (offBoard _); [by apply keeps_ret | apply capture_dispatch].
    + by apply keeps_dispatchNaN.
    + apply keeps_throw.
  - destruct moved; [| by apply keeps_ret].
    apply keeps_bind; [done | apply keeps_getHistory; done | intros h].
    apply keeps_bind; [done | apply R_history | intros _].
    apply keeps_bind; [done | apply keeps_getHistory; done | intros h'].
    apply keeps_bind; [done | apply R_emit | intros _; by apply keeps_ret].
Qed.

End Capture.

Lemma rostersShrink_refl w : rostersShrink w w.
Proof. intros X. reflexivity. Qed.

Lemma rostersShrink_trans a b c :
  rostersShrink a b -> rostersShrink b c -> rostersShrink a c.
Proof. intros H1 H2 X. etransitivity; [apply H2 | apply H1]. Qed.

Lemma rostersShrink_write x y v : keeps rostersShrink (writeCell x y v).
Proof.
  intros w u w' H. unfold writeCell in H.
  destruct (setCell _ x y v); [| discriminate]. injection H as _ <-.
  intros X. destruct X; reflexivity.
Qed.

Lemma rostersShrink_capture x y : keeps rostersShrink (capturePiece x y).
Proof.
  unfold capturePiece.
  apply keeps_bind;
    [apply rostersShrink_trans
    | apply keeps_readCell, rostersShrink_refl | intros c].
  destruct (truthy c); [| apply keeps_ret, rostersShrink_refl].
  destruct (ownerOf c) as [player|]; [| apply keeps_throw].
  apply keeps_bind; [apply rostersShrink_trans | | intros _; apply rostersShrink_write].
  intros w u w' H. injection H as _ <-. intros X.
  destruct player, X; cbn; first [reflexivity | apply sublist_filter].
Qed.

Lemma rostersShrink_processMove player character move :
  keeps rostersShrink (processMove player character move).
Proof.
  apply capture_processMove;
    [apply rostersShrink_refl | apply rostersShrink_trans
    | apply rostersShrink_write | apply rostersShrink_capture | |];
    intros ? w u w' H; injection H as _ <-; intros X; reflexivity.
Qed.

Lemma moves_only_shrink_rosters_aux w w' character move X :
  handleMove character move w = Ok tt w' ->
  pieces X (gameState w') `sublist_of` pieces X (gameState w).
Proof.
  intros H. apply handleMove_inv in H
    as [[_ ->]|[(w1 & Hp & ->)|[(w1 & Hp & _ & ->)|(w1 & Hp & _ & _ & ->)]]].
  - reflexivity.
  - apply (rostersShrink_processMove _ _ _ _ _ _ Hp).
  - destruct X; apply sublist_nil_l.
  - pose proof (rostersShrink_processMove _ _ _ _ _ _ Hp X) as Hs.
    by destruct X.
Qed.

(** X4: a move command never adds, alters or reorders a roster entry:
    whether it is rejected, accepted or ends the match, each roster after it
    is a sublist of that roster before it. *)
Theorem moves_only_shrink_rosters (w w' : World) (character move : string) (X : Player) :
  handleMove character move w = Ok tt w' ->
  pieces X (gameState w') `sublist_of` pieces X (gameState w).
Proof. apply moves_only_shrink_rosters_aux. Qed.

(** The rejected hero move that takes a pawn. *)
Lemma moves_only_shrink_rosters_witness :
  pieces B (gameState Scenario.heroBounced)
    `sublist_of` pieces B (gameState Scenario.heroAtEdge).
Proof.
  apply (moves_only_shrink_rosters Scenario.heroAtEdge Scenario.heroBounced "A-H1" "F" B).
  vm_compute. reflexivity.
Defined.

Lemma sublist_refl_conv (l k : list Piece) : l = k -> l `sublist_of` k.
Proof. intros ->. reflexivity. Qed.

Lemma runRecording_rosters cs : forall w sA sB w' sA' sB',
  Reachable w ->
  piecesA (gameState w) `sublist_of` entriesOf 0 sA ->
  piecesB (gameState w) `sublist_of` entriesOf 4 sB ->
  runRecording cs w sA sB = Some (w', sA', sB') ->
  Reachable w' /\
  piecesA (gameState w') `sublist_of` entriesOf 0 sA' /\
  piecesB (gameState w') `sublist_of` entriesOf 4 sB'.
Proof.
  induction cs as [|c rest IH]; intros w sA sB w' sA' sB' Hr HA HB H; cbn [runRecording] in H.
  - injection H as <- <- <-. by repeat split.
  - destruct (onMessage c w) as [[] w1|] eqn:Hc; [| discriminate].
    assert (Hr1 : Reachable w1) by (eapply reach_step; eassumption).
    assert (Hkeep : forall s1 s2,
              piecesA (gameState w1) `sublist_of` entriesOf 0 s1 ->
              piecesB (gameState w1) `sublist_of` entriesOf 4 s2 ->
              runRecording rest w1 s1 s2 = Some (w', sA', sB') ->
              Reachable w' /\
              piecesA (gameState w') `sublist_of` entriesOf 0 sA' /\
              piecesB (gameState w') `sublist_of` entriesOf 4 sB')
      by (intros s1 s2 H1 H2 Hrun; by apply (IH w1 s1 s2)).
    destruct c as [s|character move|]; cbn [onMessage] in Hc.
    + unfold current in *.
      destruct (currentPlayer (gameState w)) eqn:Hcur.
      * destruct (piecesA (gameState w)) as [|p l] eqn:Hp.
        -- destruct (fiveRows_home w (current w) (Reachable_fiveRows w Hr)) as [r Hrow].
           unfold current in Hrow. rewrite Hcur in Hrow.
           rewrite (handleSetup_run w s r) in Hc
             by (unfold current; rewrite Hcur; assumption).
           injection Hc as <-.
           pose proof (afterSetup_pieces (gameState w) s r) as Hps.
           pose proof (afterSetup_other (gameState w) s r) as Hos.
           rewrite Hcur in Hps, Hos. cbn [pieces otherPlayer] in Hps, Hos.
           apply (Hkeep s sB); cbn [gameState];
             [rewrite Hps; apply sublist_refl_conv; reflexivity | by rewrite Hos | exact H].
        -- apply handleSetup_inv in Hc as [[_ ->]|[Hnil _]];
             [| unfold current in Hnil; rewrite Hcur in Hnil; cbn in Hnil; congruence].
           apply (Hkeep sA sB); cbn [gameState]; [by rewrite Hp | exact HB | exact H].
      * destruct (piecesB (gameState w)) as [|p l] eqn:Hp.
        -- destruct (fiveRows_home w (current w) (Reachable_fiveRows w Hr)) as [r Hrow].
           unfold current in Hrow. rewrite Hcur in Hrow.
           rewrite (handleSetup_run w s r) in Hc
             by (unfold current; rewrite Hcur; assumption).
           injection Hc as <-.
           pose proof (afterSetup_pieces (gameState w) s r) as Hps.
           pose proof (afterSetup_other (gameState w) s r) as Hos.
           rewrite Hcur in Hps, Hos. cbn [pieces otherPlayer] in Hps, Hos.
           apply (Hkeep sA s); cbn [gameState];
             [by rewrite Hos | rewrite Hps; apply sublist_refl_conv; reflexivity | exact H].
        -- apply handleSetup_inv in Hc as [[_ ->]|[Hnil _]];
             [| unfold current in Hnil; rewrite Hcur in Hnil; cbn in Hnil; congruence].
           apply (Hkeep sA sB); cbn [gameState]; [exact HA | by rewrite Hp | exact H].
    + assert (H' : runRecording rest w1 sA sB = Some (w', sA', sB'))
        by (destruct (current w); [destruct (piecesA _) | destruct (piecesB _)]; exact H).
      apply (Hkeep sA sB); [| | exact H'].
      * etransitivity; [apply (moves_only_shrink_rosters_aux _ _ _ _ A Hc) | exact HA].
      * etransitivity; [apply (moves_only_shrink_rosters_aux _ _ _ _ B Hc) | exact HB].
    + assert (H' : runRecording rest w1 sA sB = Some (w', sA', sB'))
        by (destruct (current w); [destruct (piecesA _) | destruct (piecesB _)]; exact H).
      rewrite resetGame_run in Hc. injection Hc as <-.
      apply (Hkeep sA sB); [apply sublist_nil_l | apply sublist_nil_l | exact H'].
Qed.

(** X5: after any sequence of commands handled from the initial state,
    A's roster is a sublist of the entries (name s[i], row 0, column i) of
    the sequence s last accepted from A at setup, and B's roster a sublist
    of the entries (name s[i], row 4, column i) of the sequence last
    accepted from B: whatever moves were made since, every roster entry
    still has the name, row and column that setup gave it. *)
Theorem rosters_keep_setup_coordinates
    (cs : list Command) (w : World) (sA sB : list string) :
  runRecording cs initialWorld [] [] = Some (w, sA, sB) ->
  piecesA (gameState w) `sublist_of` entriesOf 0 sA /\
  piecesB (gameState w) `sublist_of` entriesOf 4 sB /\
  forall X p, p ∈ pieces X (gameState w) ->
    exists i : nat,
      match X with A => sA | B => sB end !! i = Some (name p) /\
      row p = match X with A => 0 | B => 4 end /\
      col p = Z.of_nat i.
Proof.
  intros H.
  destruct (runRecording_rosters cs initialWorld [] [] w sA sB reach_init
              (sublist_nil_l _) (sublist_nil_l _) H) as (_ & HA & HB).
  split; [exact HA |]. split; [exact HB |].
  intros X p Hp.
  assert (Hin : p ∈ entriesOf (match X with A => 0 | B => 4 end)
                     (match X with A => sA | B => sB end))
    by (destruct X; cbn [pieces] in Hp; eapply elem_of_sublist; eassumption).
  unfold entriesOf in Hin. apply elem_of_lookup_imap in Hin as (i & n & -> & Hi).
  exists i. by repeat split.
Qed.

(** After A's hero has walked from (0,0) to (3,1) and B's hero from (4,2)
    to (2,3): A's entry is still H1 on row 0, column 0, and B's entries
    are those of ["P1"; "P2"; "H1"] on row 4. *)
Lemma rosters_keep_setup_coordinates_witness :
  piecesA (gameState Scenario.heroAtEdge) `sublist_of` entriesOf 0 ["H1"] /\
  piecesB (gameState Scenario.heroAtEdge) `sublist_of` entriesOf 4 ["P1"; "P2"; "H1"] /\
  forall X p, p ∈ pieces X (gameState Scenario.heroAtEdge) ->
    exists i : nat,
      match X with A => ["H1"] | B => ["P1"; "P2"; "H1"] end !! i = Some (name p) /\
      row p = match X with A => 0 | B => 4 end /\
      col p = Z.of_nat i.
Proof.
  apply (rosters_keep_setup_coordinates Scenario.edge Scenario.heroAtEdge
           ["H1"] ["P1"; "P2"; "H1"]).
  vm_compute. reflexivity.
Defined.

(** ** Labels and names *)

Lemma split_nonempty sep s : Js.split sep s <> [].
Proof.
  destruct s as [|c s]; cbn; [discriminate |].
  destruct (Ascii.eqb c sep); [discriminate |]. by destruct (Js.split sep s).
Qed.

Lemma split_fields_have_no_dash s : forall f, f ∈ Js.split "-" s -> hasDash f = false.
Proof.
  induction s as [|c s IH]; intros f Hf; cbn in Hf.
  - apply list_elem_of_singleton in Hf as ->. reflexivity.
  - destruct (Ascii.eqb c "-") eqn:Ec.
    + apply elem_of_cons in Hf as [->|Hf]; [reflexivity | by apply IH].
    + destruct (Js.split "-" s) as [|h t] eqn:Es.
      * apply list_elem_of_singleton in Hf as ->. cbn. by rewrite Ec.
      * apply elem_of_cons in Hf as [->|Hf].
        -- cbn. rewrite Ec. apply IH, list_elem_of_here.
        -- by apply IH, list_elem_of_further.
Qed.

Lemma split_without_dash s : hasDash s = false -> Js.split "-" s = [s].
Proof.
  induction s as [|c s IH]; cbn; [reflexivity |]. intros H.
  apply orb_false_elim in H as [Hc Hs]. by rewrite Hc, (IH Hs).
Qed.

Lemma split_label X n : Js.split "-" (label X n) = playerName X :: Js.split "-" n.
Proof. by destruct X. Qed.

Lemma nameOf_label X n : nameOf (label X n) = Js.split "-" n !! 0%nat.
Proof. unfold nameOf. by rewrite split_label. Qed.

(** X6: the label a setup writes for the name [n] leads [findPiece] back to
    [n] exactly when [n] contains no dash; in general the name looked up is
    the part of [n] before its first dash. *)
Theorem label_names_the_piece_iff_no_dash (X : Player) (n : string) :
  nameOf (label X n) = Js.split "-" n !! 0%nat /\
  (nameOf (label X n) = Some n <-> hasDash n = false).
Proof.
  split; [apply nameOf_label |]. rewrite nameOf_label. split.
  - intros H. apply (split_fields_have_no_dash n).
    apply list_elem_of_lookup. by exists 0%nat.
  - intros H. by rewrite (split_without_dash n H).
Qed.

(** X7: [findPiece] never returns an entry whose name contains a dash,
    whatever label is sent: the roster check of [handleMove] is only ever
    passed through an entry with a dashless name. *)
Theorem findPiece_never_finds_dashed_name
    (player : Player) (character : string) (g : GameState) (p : Piece) :
  findPiece player character g = Some p -> hasDash (name p) = false.
Proof.
  intros H. destruct (findPiece_nameOf _ _ _ _ H) as (n & Hn & -> & _).
  apply (split_fields_have_no_dash character). apply list_elem_of_lookup.
  by exists 1%nat.
Qed.

Lemma findPiece_never_finds_dashed_name_witness :
  hasDash (name (mkPiece "H1" 0 0)) = false.
Proof.
  apply (findPiece_never_finds_dashed_name A "B-H1-x"
           (gameState Scenario.heroesPlaced) (mkPiece "H1" 0 0)).
  vm_compute. reflexivity.
Defined.

(** X8: [findPiece] does not look at the owner letter of the label: the
    labels of the two players for one name find the same entry of the
    roster searched. *)
Theorem findPiece_ignores_owner_letter
    (player X Y : Player) (n : string) (g : GameState) :
  findPiece player (label X n) g = findPiece player (label Y n) g.
Proof. unfold findPiece. by rewrite !nameOf_label. Qed.

(** ** What a move does to the board *)

Lemma readCell_inv x y w c w' :
  readCell x y w = Ok c w' -> w' = w /\ cellAt (board (gameState w)) x y = Some c.
Proof.
  unfold readCell. destruct (cellAt _ x y) as [c0|]; [| discriminate].
  intros [= <- <-]. by split.
Qed.

Lemma writeCell_cells x y v w w' px py :
  writeCell x y v w = Ok tt w' -> 0 <= y -> 0 <= py ->
  cellAt (board (gameState w')) px py =
    if decide (px = x /\ py = y) then Some v else cellAt (board (gameState w)) px py.
Proof.
  unfold writeCell. destruct (setCell _ x y v) as [b'|] eqn:Es; [| discriminate].
  intros [= <-] Hy Hpy. cbn. apply (cellAt_setCell _ _ _ _ _ px py Es Hy Hpy).
Qed.

Lemma capturePiece_other x y w w' px py :
  capturePiece x y w = Ok tt w' -> 0 <= y -> 0 <= py -> (px, py) <> (x, y) ->
  cellAt (board (gameState w')) px py = cellAt (board (gameState w)) px py.
Proof.
  unfold capturePiece. intros H Hy Hpy Hne.
  apply bind_Ok in H as (c & w0 & Er & H). apply readCell_inv in Er as [-> _].
  destruct (truthy c); [| by injection H as <-].
  destruct (ownerOf c) as [player|]; [| discriminate].
  apply bind_Ok in H as ([] & w1 & Em & H). injection Em as <-.
  rewrite (writeCell_cells _ _ _ _ _ px py H Hy Hpy).
  destruct (decide _) as [[-> ->]|_]; [contradiction |]. cbn. by destruct player.
Qed.

Lemma heroPath_other steps fx fy dx dy px py : forall w ok w',
  heroPath steps fx fy dx dy w = Ok ok w' -> 0 <= py ->
  (forall i, i ∈ steps -> (px, py) <> (fx + i * dx, fy + i * dy)) ->
  cellAt (board (gameState w')) px py = cellAt (board (gameState w)) px py.
Proof.
  induction steps as [|i rest IH]; intros w ok w' H Hpy Hoff; cbn [heroPath] in H.
  - by injection H as _ <-.
  - destruct (Z.ltb_spec (fx + i * dx) 0); cbn [orb] in H; [by injection H as _ <- |].
    destruct (Z.leb_spec 5 (fx + i * dx)); cbn [orb] in H; [by injection H as _ <- |].
    destruct (Z.ltb_spec (fy + i * dy) 0); cbn [orb] in H; [by injection H as _ <- |].
    destruct (Z.leb_spec 5 (fy + i * dy)); cbn [orb] in H; [by injection H as _ <- |].
    apply bind_Ok in H as (c & w0 & Er & H). apply readCell_inv in Er as [-> _].
    apply bind_Ok in H as (g & w0 & Eg & H). injection Eg as _ <-.
    apply bind_Ok in H as ([] & w1 & Ec & H).
    rewrite (IH w1 ok w' H Hpy) by (intros j Hj; apply Hoff; by apply list_elem_of_further).
    destruct (notOwnedBy c _); [| by injection Ec as <-].
    apply (capturePiece_other _ _ _ _ px py Ec); [lia | exact Hpy |].
    apply Hoff, list_elem_of_here.
Qed.

(** X9: what an accepted [movePawn] does to the board: the origin is set to
    null, the destination ends falsy (the pawn written there is cleared
    again by [capturePiece]), and every other cell is as before. *)
Theorem movePawn_board_effect (from to : Z * Z) (w w' : World) :
  0 <= from.2 -> 0 <= to.2 -> from <> to ->
  movePawn from to w = Ok true w' ->
  cellAt (board (gameState w')) from.1 from.2 = Some None /\
  (exists c, cellAt (board (gameState w')) to.1 to.2 = Some c /\ truthy c = false) /\
  forall px py, 0 <= py -> (px, py) <> from -> (px, py) <> to ->
    cellAt (board (gameState w')) px py = cellAt (board (gameState w)) px py.
Proof.
  intros Hf Ht Hne H.
  split; [| split; [apply (movePawn_leaves_destination_falsy from to w w' Ht H) |]];
    unfold movePawn in H; destruct to as [x y], from as [fx fy]; cbn [fst snd] in *;
    apply bind_Ok in H as (c & w0 & Er & H); apply readCell_inv in Er as [-> _];
    apply bind_Ok in H as (g & w0 & Eg & H); injection Eg as _ <-;
    (destruct (ownedBy c _); [discriminate |]);
    apply bind_Ok in H as (v & w0 & Er & H); apply readCell_inv in Er as [-> _];
    apply bind_Ok in H as ([] & w1 & Hw1 & H);
    apply bind_Ok in H as ([] & w2 & Hw2 & H);
    apply bind_Ok in H as ([] & w3 & Hc & H); injection H as <-.
  - rewrite (capturePiece_other _ _ _ _ fx fy Hc Ht Hf) by congruence.
    rewrite (writeCell_cells _ _ _ _ _ fx fy Hw2 Hf Hf).
    destruct (decide _) as [_|Hn]; [reflexivity | exfalso; by apply Hn].
  - intros px py Hpy Hnf Hnt.
    rewrite (capturePiece_other _ _ _ _ px py Hc Ht Hpy Hnt).
    rewrite (writeCell_cells _ _ _ _ _ px py Hw2 Hf Hpy).
    destruct (decide _) as [[-> ->]|_]; [contradiction |].
    rewrite (writeCell_cells _ _ _ _ _ px py Hw1 Ht Hpy).
    destruct (decide _) as [[-> ->]|_]; [contradiction | reflexivity].
Qed.

(** B's pawn taking A's hero. *)
Lemma movePawn_board_effect_witness :
  cellAt (board (gameState Step.pawnOntoHero)) 4 0 = Some None /\
  (exists c, cellAt (board (gameState Step.pawnOntoHero)) 3 1 = Some c /\
             truthy c = false) /\
  forall px py, 0 <= py -> (px, py) <> (4, 0) -> (px, py) <> (3, 1) ->
    cellAt (board (gameState Step.pawnOntoHero)) px py
      = cellAt (board (gameState Scenario.pawnFacesHero)) px py.
Proof.
  apply (movePawn_board_effect (4, 0) (3, 1) Scenario.pawnFacesHero Step.pawnOntoHero);
    [cbn; lia | cbn; lia | discriminate | vm_compute; reflexivity].
Defined.

(** X10: what an accepted [moveHero1] does to the board: the content of the
    origin is written to [to] (which [processMove] computes one step from
    the origin), the origin is set to null, and no cell changes besides
    these two and the two cells of the scanned path. *)
Theorem moveHero1_board_effect (from to : Z * Z) (w w' : World) :
  0 <= from.2 -> 0 <= to.2 -> from <> to ->
  moveHero1 from to w = Ok true w' ->
  let dx := Z.sgn (to.1 - from.1) in
  let dy := Z.sgn (to.2 - from.2) in
  (exists v, cellAt (board (gameState w)) from.1 from.2 = Some v /\
             cellAt (board (gameState w')) to.1 to.2 = Some v) /\
  cellAt (board (gameState w')) from.1 from.2 = Some None /\
  forall px py, 0 <= py -> (px, py) <> from -> (px, py) <> to ->
    (px, py) <> (from.1 + dx, from.2 + dy) ->
    (px, py) <> (from.1 + 2 * dx, from.2 + 2 * dy) ->
    cellAt (board (gameState w')) px py = cellAt (board (gameState w)) px py.
Proof.
  intros Hf Ht Hne H dx dy. unfold moveHero1 in H.
  destruct to as [x y], from as [fx fy]. cbn [fst snd] in *.
  apply bind_Ok in H as (c & w0 & Er & H). apply readCell_inv in Er as [-> _].
  apply bind_Ok in H as (g & w0 & Eg & H). injection Eg as _ <-.
  destruct (ownedBy c _); [discriminate |].
  apply bind_Ok in H as (ok & w1 & Hp & H). destruct ok; [| discriminate].
  cbn [negb] in H.
  apply bind_Ok in H as (v & w0 & Er & H). apply readCell_inv in Er as [-> Hv].
  apply bind_Ok in H as ([] & w2 & Hw2 & H).
  apply bind_Ok in H as ([] & w3 & Hw3 & H). injection H as <-.
  assert (Hpath : forall i, i ∈ [1; 2] ->
            (fx, fy) <> (fx + i * Z.sgn (x - fx), fy + i * Z.sgn (y - fy))).
  { intros i Hi [= E1 E2].
    assert (Hi' : i = 1 \/ i = 2)
      by (rewrite !elem_of_cons, elem_of_nil in Hi; tauto).
    assert (Z.sgn (x - fx) = 0 /\ Z.sgn (y - fy) = 0) as [S1 S2] by lia.
    apply Z.sgn_null_iff in S1, S2. apply Hne. f_equal; lia. }
  rewrite (heroPath_other _ _ _ _ _ fx fy _ _ _ Hp Hf Hpath) in Hv.
  split; [| split].
  - exists v. split; [exact Hv |].
    rewrite (writeCell_cells _ _ _ _ _ x y Hw3 Hf Ht).
    destruct (decide _) as [[-> ->]|_]; [contradiction |].
    rewrite (writeCell_cells _ _ _ _ _ x y Hw2 Ht Ht).
    destruct (decide _) as [_|Hn]; [reflexivity | exfalso; by apply Hn].
  - rewrite (writeCell_cells _ _ _ _ _ fx fy Hw3 Hf Hf).
    destruct (decide _) as [_|Hn]; [reflexivity | exfalso; by apply Hn].
  - intros px py Hpy Hnf Hnt H1 H2.
    rewrite (writeCell_cells _ _ _ _ _ px py Hw3 Hf Hpy).
    destruct (decide _) as [[-> ->]|_]; [contradiction |].
    rewrite (writeCell_cells _ _ _ _ _ px py Hw2 Ht Hpy).
    destruct (decide _) as [[-> ->]|_]; [contradiction |].
    apply (heroPath_other _ _ _ _ _ px py _ _ _ Hp Hpy).
    intros i Hi. rewrite !elem_of_cons, elem_of_nil in Hi.
    destruct Hi as [->|[->|[]]]; [| exact H2].
    subst dx dy. by rewrite !Z.mul_1_l.
Qed.

(** A's hero taking B's last piece two cells ahead: it lands on (3,1). *)
Lemma moveHero1_board_effect_witness :
  (exists v, cellAt (board (gameState Scenario.lastPieceLeft)) 2 1 = Some v /\
             cellAt (board (gameState Step.heroTakesLast)) 3 1 = Some v) /\
  cellAt (board (gameState Step.heroTakesLast)) 2 1 = Some None /\
  forall px py, 0 <= py -> (px, py) <> (2, 1) -> (px, py) <> (3, 1) ->
    (px, py) <> (2 + 1, 1 + 0) ->
    (px, py) <> (2 + 2 * 1, 1 + 2 * 0) ->
    cellAt (board (gameState Step.heroTakesLast)) px py
      = cellAt (board (gameState Scenario.lastPieceLeft)) px py.
Proof.
  apply (moveHero1_board_effect (2, 1) (3, 1) Scenario.lastPieceLeft Step.heroTakesLast);
    [cbn; lia | cbn; lia | discriminate | vm_compute; reflexivity].
Defined.

(** ** Rejected and accepted moves *)

Lemma movePawn_false from to w w' : movePawn from to w = Ok false w' -> w' = w.
Proof.
  unfold movePawn. destruct to as [x y]. intros H.
  apply bind_Ok in H as (c & w0 & Er & H). apply readCell_inv in Er as [-> _].
  apply bind_Ok in H as (g & w0 & Eg & H). injection Eg as _ <-.
  destruct (ownedBy c _); [by injection H as <- |].
  apply bind_Ok in H as (v & w0 & _ & H).
  apply bind_Ok in H as ([] & w1 & _ & H).
  apply bind_Ok in H as ([] & w2 & _ & H).
  apply bind_Ok in H as ([] & w3 & _ & H). discriminate.
Qed.

Lemma processMove_result player character move w moved w' :
  processMove player character move w = Ok moved w' ->
  (moved = false /\ w' = w /\
   scanFrom (board (gameState w)) character scanOrder None = Some None) \/
  exists from w1,
    scanFrom (board (gameState w)) character scanOrder None = Some (Some from) /\
    match directions player move with
    | Undefined => throw
    | Inherited => dispatchNaN character
    | Offset dr dc =>
        let to := (from.1 + dr, from.2 + dc) in
        if offBoard to then mret false else dispatch character from to
    end w = Ok moved w1 /\
    (moved = false -> w' = w1).
Proof.
  unfold processMove. intros H.
  apply bind_Ok in H as (g & w0 & Eg & H). injection Eg as <- <-.
  destruct (scanFrom _ _ _ _) as [[from|]|]; [| | discriminate].
  - right. apply bind_Ok in H as (b & w1 & Ea & H). exists from, w1.
    split; [reflexivity |]. destruct b.
    + apply bind_Ok in H as (h & w2 & _ & H).
      apply bind_Ok in H as ([] & w3 & _ & H).
      apply bind_Ok in H as (h' & w4 & _ & H).
      apply bind_Ok in H as ([] & w5 & _ & H). injection H as <- _.
      split; [exact Ea | discriminate].
    + injection H as <- <-. split; [exact Ea | reflexivity].
  - left. by injection H as <- <-.
Qed.

Lemma dispatch_false_non_hero character from to w w' :
  isHero character = false -> dispatch character from to w = Ok false w' -> w' = w.
Proof.
  unfold isHero, dispatch. destruct (nameOf character) as [n|]; [| discriminate].
  destruct (Js.char0 n) as [ch|]; [| by intros _ [= <-]].
  intros Hh H. destruct (Ascii.eqb_spec ch "P") as [->|NP];
    [by apply movePawn_false in H |].
  destruct (Ascii.eqb_spec ch "H") as [E|NH]; [discriminate |].
  destruct ch as [[] [] [] [] [] [] [] []];
    first [by injection H as <- | congruence].
Qed.

Lemma dispatchNaN_Ok character moved w w' :
  dispatchNaN character w = Ok moved w' -> moved = false /\ w' = w.
Proof.
  unfold dispatchNaN. destruct (nameOf character) as [n|]; [| discriminate].
  destruct (Js.char0 n) as [ch|]; [| by intros [= <- <-]].
  destruct ch as [[] [] [] [] [] [] [] []];
    first [by intros [= <- <-] | discriminate].
Qed.

Lemma processMove_false_non_hero player character move w w' :
  isHero character = false ->
  processMove player character move w = Ok false w' -> w' = w.
Proof.
  intros Hh H.
  apply processMove_result in H as [(_ & -> & _)|(from & w1 & _ & Ha & Hw)];
    [reflexivity |].
  rewrite (Hw eq_refl). destruct (directions player move) as [dr dc| |].
  - cbv zeta in Ha. destruct (offBoard _); [by injection Ha as <- |].
    apply (dispatch_false_non_hero _ _ _ _ _ Hh Ha).
  - by apply dispatchNaN_Ok in Ha as [_ ->].
  - discriminate.
Qed.

Lemma rejected_move_inv character move w w' :
  handleMove character move w = Ok tt w' -> Rejected w w' ->
  exists w1, gameState w' = gameState w1 /\ moveHistory w' = moveHistory w1 /\
    (w1 = w \/ processMove (current w) character move w = Ok false w1).
Proof.
  intros H Hrej. apply handleMove_inv in H
    as [[_ ->]|[(w1 & Hp & ->)|[(w1 & Hp & _ & ->)|(w1 & Hp & _ & _ & ->)]]].
  - exists w. repeat split. by left.
  - exists w1. repeat split. by right.
  - exfalso. apply processMove_inv in Hp as (w0 & _ & ->).
    eapply (broadcast_not_rejected _ _ [_]); [| exact Hrej].
    cbn. by rewrite <- app_assoc.
  - exfalso. apply processMove_inv in Hp as (w0 & _ & ->).
    eapply (broadcast_not_rejected _ _ [_; _]); [| exact Hrej].
    cbn. by rewrite <- app_assoc.
Qed.

(** X11: a rejected move command for a label that is not dispatched to a
    hero function (unknown name, label not on the board, off-board or
    friendly destination of a pawn, unknown piece letter) leaves the game
    state and the move log exactly as they were. *)
Theorem rejected_non_hero_move_changes_nothing (w w' : World) (character move : string) :
  handleMove character move w = Ok tt w' ->
  Rejected w w' ->
  isHero character = false ->
  gameState w' = gameState w /\ moveHistory w' = moveHistory w.
Proof.
  intros H Hrej Hh.
  destruct (rejected_move_inv character move w w' H Hrej) as (w1 & -> & -> & [->|Hp]);
    [by split |].
  by rewrite (processMove_false_non_hero _ _ _ _ _ Hh Hp).
Qed.

(** A's pawn told to leave the board by the left edge. *)
Lemma rejected_non_hero_move_changes_nothing_witness :
  gameState (worldAfter (Scenario.pawns ++ [Move "A-P1" "L"]))
    = gameState Scenario.pawnsPlaced /\
  moveHistory (worldAfter (Scenario.pawns ++ [Move "A-P1" "L"]))
    = moveHistory Scenario.pawnsPlaced.
Proof.
  apply (rejected_non_hero_move_changes_nothing Scenario.pawnsPlaced
           (worldAfter (Scenario.pawns ++ [Move "A-P1" "L"])) "A-P1" "L").
  - vm_compute. reflexivity.
  - exists "Invalid move.". vm_compute. reflexivity.
  - vm_compute. reflexivity.
Defined.

Lemma processMove_without_function player character move w moved w' :
  hasMoveFunction character = false ->
  processMove player character move w = Ok moved w' -> moved = false.
Proof.
  intros Hm H.
  apply processMove_result in H as [(-> & _)|(from & w1 & _ & Ha & _)];
    [reflexivity |].
  destruct (directions player move) as [dr dc| |].
  - cbv zeta in Ha. destruct (offBoard _); [by injection Ha as <- |].
    unfold hasMoveFunction, dispatch in *.
    destruct (nameOf character) as [n|]; [| discriminate].
    destruct (Js.char0 n) as [ch|]; [| by injection Ha as <-].
    destruct ch as [[] [] [] [] [] [] [] []];
      first [by injection Ha as <- | discriminate].
  - by apply dispatchNaN_Ok in Ha as [-> _].
  - discriminate.
Qed.

(** X12: a piece whose name starts with a letter other than P and H can be
    set up but never moved: every move command for its label that returns
    is rejected, and game state and log stay as they were. *)
Theorem pieces_without_move_function_never_move
    (w w' : World) (character move : string) :
  hasMoveFunction character = false ->
  handleMove character move w = Ok tt w' ->
  Rejected w w' /\ gameState w' = gameState w /\ moveHistory w' = moveHistory w.
Proof.
  intros Hm H.
  assert (Hh : isHero character = false).
  { unfold hasMoveFunction, isHero in *. destruct (nameOf character) as [n|]; [| done].
    destruct (Js.char0 n) as [ch|]; [| done]. by apply orb_false_elim in Hm as [_ ->]. }
  apply handleMove_inv in H
    as [[_ ->]|[(w1 & Hp & ->)|[(w1 & Hp & _)|(w1 & Hp & _)]]].
  - split; [by eexists | by split].
  - rewrite (processMove_false_non_hero _ _ _ _ _ Hh Hp).
    split; [by eexists | by split].
  - by apply (processMove_without_function _ _ _ _ _ _ Hm) in Hp.
  - by apply (processMove_without_function _ _ _ _ _ _ Hm) in Hp.
Qed.

(** A piece named "K1" asked to step forward. *)
Lemma pieces_without_move_function_never_move_witness :
  Rejected (worldAfter [Setup ["K1"]; Setup ["K1"]])
    (worldAfter [Setup ["K1"]; Setup ["K1"]; Move "A-K1" "F"]) /\
  gameState (worldAfter [Setup ["K1"]; Setup ["K1"]; Move "A-K1" "F"])
    = gameState (worldAfter [Setup ["K1"]; Setup ["K1"]]) /\
  moveHistory (worldAfter [Setup ["K1"]; Setup ["K1"]; Move "A-K1" "F"])
    = moveHistory (worldAfter [Setup ["K1"]; Setup ["K1"]]).
Proof.
  apply (pieces_without_move_function_never_move
           (worldAfter [Setup ["K1"]; Setup ["K1"]])
           (worldAfter [Setup ["K1"]; Setup ["K1"]; Move "A-K1" "F"]) "A-K1" "F");
    vm_compute; reflexivity.
Defined.

(** X13: how a move command that returns leaves log, turn and messages:
    rejected, it changes none of log and turn; ending the match, it empties
    the log and broadcasts the history and the end; otherwise it appends
    the one entry "<player>-<name>: <code>", passes the turn and broadcasts
    the history twice, before and after the update. *)
Theorem move_log_turn_and_messages (w w' : World) (character move : string) :
  handleMove character move w = Ok tt w' ->
  let entry := moveDesc (current w) character move in
  (Rejected w w' /\ moveHistory w' = moveHistory w /\ current w' = current w) \/
  (gameState w' = freshGame /\ moveHistory w' = [] /\
   exists winner,
     outbox w' = (outbox w ++ [Broadcast (MMoveHistory (moveHistory w ++ [entry]));
                               Broadcast (MEnd winner)])%list) \/
  (current w' = otherPlayer (current w) /\
   moveHistory w' = (moveHistory w ++ [entry])%list /\
   outbox w' = (outbox w ++ [Broadcast (MMoveHistory (moveHistory w'));
                             Broadcast (MUpdate (gameState w'));
                             Broadcast (MMoveHistory (moveHistory w'))])%list).
Proof.
  intros H entry. apply handleMove_inv in H
    as [[_ ->]|[(w1 & Hp & ->)|[(w1 & Hp & _ & ->)|(w1 & Hp & _ & _ & ->)]]].
  - left. split; [by eexists | by split].
  - left. apply processMove_inv in Hp as (w0 & (Ht & Ho & Hh & _) & ->).
    unfold sameTurn, sameOutbox, sameHistory in *. cbn.
    split; [eexists; cbn; by rewrite Ho | by split].
  - right. left. apply processMove_inv in Hp as (w0 & _ & ->). cbn.
    split; [reflexivity |]. split; [reflexivity |]. eexists. by rewrite <- app_assoc.
  - right. right. apply processMove_inv in Hp as (w0 & _ & ->). cbn.
    split; [reflexivity |]. split; [reflexivity |]. by rewrite <- app_assoc.
Qed.

(** A's hero stepping forward at the start of a game. *)
Lemma move_log_turn_and_messages_witness :
  let w := Scenario.heroesPlaced in
  let w' := Scenario.heroMoved in
  let entry := moveDesc (current w) "A-H1" "F" in
  (Rejected w w' /\ moveHistory w' = moveHistory w /\ current w' = current w) \/
  (gameState w' = freshGame /\ moveHistory w' = [] /\
   exists winner,
     outbox w' = (outbox w ++ [Broadcast (MMoveHistory (moveHistory w ++ [entry]));
                               Broadcast (MEnd winner)])%list) \/
  (current w' = otherPlayer (current w) /\
   moveHistory w' = (moveHistory w ++ [entry])%list /\
   outbox w' = (outbox w ++ [Broadcast (MMoveHistory (moveHistory w'));
                             Broadcast (MUpdate (gameState w'));
                             Broadcast (MMoveHistory (moveHistory w'))])%list).
Proof.
  apply (move_log_turn_and_messages Scenario.heroesPlaced Scenario.heroMoved "A-H1" "F").
  vm_compute. reflexivity.
Defined.

(** ** More on setup *)

Lemma placedRow_above player s : forall index r j,
  (index + length s <= j)%nat ->
  Js.arrayGet (placedRow player index s r) j = Js.arrayGet r j.
Proof.
  induction s as [|piece rest IH]; intros index r j Hj; cbn [placedRow length] in *;
    [reflexivity |].
  rewrite IH by lia. rewrite arrayGet_arraySet.
  destruct (decide (j = index)); [lia | reflexivity].
Qed.

(** X14: an accepted setup writes the first [length s] cells of the acting
    player's home row and nothing else: every other cell, the opponent's
    roster and the move log are as before. *)
Theorem setup_touches_only_home_cells (w : World) (s : list string) :
  fiveRows w ->
  pieces (current w) (gameState w) = [] ->
  exists w',
    handleSetup s w = Ok tt w' /\
    pieces (otherPlayer (current w)) (gameState w')
      = pieces (otherPlayer (current w)) (gameState w) /\
    moveHistory w' = moveHistory w /\
    forall x y, x <> homeRow (current w) \/ Z.of_nat (length s) <= y ->
      cellAt (board (gameState w')) x y = cellAt (board (gameState w)) x y.
Proof.
  intros H5 Hempty. destruct (fiveRows_home w (current w) H5) as [r Hr].
  eexists. split; [apply (handleSetup_run w s r Hempty Hr) |].
  unfold current in *. cbn [gameState moveHistory].
  split; [apply afterSetup_other |]. split; [reflexivity |].
  intros x y Hxy. rewrite afterSetup_board. unfold cellAt.
  destruct (Z.ltb_spec x 0) as [|Hx]; [reflexivity |].
  destruct (decide (x = homeRow (currentPlayer (gameState w)))) as [->|Hne].
  - destruct Hxy as [|Hy]; [contradiction |].
    rewrite list_lookup_insert_eq by (eapply lookup_lt_Some, Hr). rewrite Hr.
    destruct (Z.ltb_spec y 0); [reflexivity |]. f_equal.
    apply placedRow_above. lia.
  - rewrite list_lookup_insert_ne; [reflexivity |].
    destruct (currentPlayer (gameState w)); cbn in *; lia.
Qed.

(** B's setup after A's. *)
Lemma setup_touches_only_home_cells_witness :
  exists w',
    handleSetup ["P1"; "H1"] Scenario.firstSetup = Ok tt w' /\
    pieces A (gameState w') = pieces A (gameState Scenario.firstSetup) /\
    moveHistory w' = moveHistory Scenario.firstSetup /\
    forall x y, x <> 4 \/ Z.of_nat 2 <= y ->
      cellAt (board (gameState w')) x y
        = cellAt (board (gameState Scenario.firstSetup)) x y.
Proof.
  apply (setup_touches_only_home_cells Scenario.firstSetup ["P1"; "H1"]); reflexivity.
Defined.

(** ** The table of directions and the dispatch *)

Ltac direction_case move player code :=
  let H := fresh in
  destruct (String.eqb_spec move code) as [->|?];
    [destruct player; intros H; vm_compute in H; injection H as <- <-;
     (split; [rewrite !elem_of_cons; tauto |]);
     repeat (split; [first [lia | discriminate] |]);
     vm_compute; reflexivity |].

(** X15: every entry of [directions] is one step of a king; a code has an
    entry only if it is one of the eight keys; the two players have the
    same entry for L and for R, and for every other code the entry of one
    player is the entry of the other with BOTH components negated. *)
Theorem directions_are_king_steps (player : Player) (move : string) (dr dc : Z) :
  directions player move = Offset dr dc ->
  validCode move /\
  -1 <= dr <= 1 /\ -1 <= dc <= 1 /\ (dr, dc) <> (0, 0) /\
  directions (otherPlayer player) move =
    if bool_decide (move = "L" \/ move = "R") then Offset dr dc
    else Offset (- dr) (- dc).
Proof.
  unfold directions, validCode, moveCodes.
  direction_case move player "L". direction_case move player "R".
  direction_case move player "F". direction_case move player "B".
  direction_case move player "FL". direction_case move player "FR".
  direction_case move player "BL". direction_case move player "BR".
  destruct (existsb _ _); intros H; discriminate H.
Qed.

Lemma directions_are_king_steps_witness :
  validCode "FL" /\
  -1 <= -1 <= 1 /\ -1 <= 1 <= 1 /\ (-1, 1) <> (0, 0) /\
  directions (otherPlayer B) "FL" =
    if bool_decide ("FL" = "L" \/ "FL" = "R") then Offset (-1) 1
    else Offset (- -1) (- 1).
Proof. apply (directions_are_king_steps B "FL" (-1) 1). reflexivity. Defined.

Lemma ownedBy_friendly c player : ownedBy c player = true <-> friendlyCell c player.
Proof.
  unfold ownedBy, friendlyCell. split.
  - destruct c as [[|ch rest]|]; [discriminate | | discriminate]. cbn.
    intros H. exists rest. destruct player; cbn in H;
      destruct (Ascii.eqb_spec ch "A"), (Ascii.eqb_spec ch "B"); subst; try discriminate;
      reflexivity.
  - intros [rest ->]. by destruct player.
Qed.

Lemma heroPath_accepts steps fx fy dx dy : forall w,
  goodWorld w ->
  exists ok w', heroPath steps fx fy dx dy w = Ok ok w' /\ goodWorld w' /\
    (ok = true <-> Forall (fun i => inGrid (fx + i * dx, fy + i * dy)) steps).
Proof.
  induction steps as [|i rest IH]; intros w Hg; cbn [heroPath].
  - exists true, w. split; [reflexivity |]. split; [exact Hg |].
    split; [intros _; constructor | reflexivity].
  - assert (Hout : ~ inGrid (fx + i * dx, fy + i * dy) ->
              exists ok w', (mret false : M bool) w = Ok ok w' /\ goodWorld w' /\
                (ok = true <->
                 Forall (fun i => inGrid (fx + i * dx, fy + i * dy)) (i :: rest))).
    { intros Hn. exists false, w. split; [reflexivity |]. split; [exact Hg |].
      split; [discriminate |]. intros H. by apply Forall_cons in H as [H _]. }
    destruct (Z.ltb_spec (fx + i * dx) 0); cbn [orb];
      [apply Hout; unfold inGrid; cbn; lia |].
    destruct (Z.leb_spec 5 (fx + i * dx)); cbn [orb];
      [apply Hout; unfold inGrid; cbn; lia |].
    destruct (Z.ltb_spec (fy + i * dy) 0); cbn [orb];
      [apply Hout; unfold inGrid; cbn; lia |].
    destruct (Z.leb_spec 5 (fy + i * dy)); cbn [orb];
      [apply Hout; unfold inGrid; cbn; lia |].
    clear Hout.
    destruct (readCell_good w (fx + i * dx) (fy + i * dy) Hg) as (c & Hr & _); [lia |].
    rewrite (bind_run _ _ _ _ _ Hr), (bind_run getGame _ w (gameState w) w eq_refl).
    assert (Hnext : forall w1, goodWorld w1 ->
              exists ok w', heroPath rest fx fy dx dy w1 = Ok ok w' /\ goodWorld w' /\
                (ok = true <->
                 Forall (fun i => inGrid (fx + i * dx, fy + i * dy)) (i :: rest))).
    { intros w1 Hg1. destruct (IH w1 Hg1) as (ok & w' & Hp & Hg' & Hiff).
      exists ok, w'. split; [exact Hp |]. split; [exact Hg' |].
      rewrite Hiff, Forall_cons. unfold inGrid at 2. cbn [fst snd]. intuition lia. }
    destruct (notOwnedBy c _).
    + destruct (capturePiece_good w (fx + i * dx) (fy + i * dy) Hg) as (w1 & Hc & Hg1);
        [lia | lia |].
      rewrite (bind_run _ _ _ _ _ Hc). apply Hnext, Hg1.
    + erewrite bind_run; [apply Hnext, Hg | reflexivity].
Qed.

(** X16: when a label is dispatched to a hero function, whatever its
    trailing digit and whatever the direction from the origin to [to]
    (straight or diagonal), the move is accepted exactly when [to] holds no
    string starting with the current player's letter and the two cells of
    the path, one and two steps from the origin in that direction, are both
    on the 5x5 board; it never throws from a reachable state. *)
Theorem hero_move_accepted_iff
    (w : World) (character : string) (from to : Z * Z) :
  isHero character = true ->
  Reachable w -> inGrid from -> inGrid to ->
  let dx := Z.sgn (to.1 - from.1) in
  let dy := Z.sgn (to.2 - from.2) in
  exists c moved w',
    cellAt (board (gameState w)) to.1 to.2 = Some c /\
    dispatch character from to w = Ok moved w' /\
    (moved = true <->
     ~ friendlyCell c (current w) /\
     inGrid (from.1 + dx, from.2 + dy) /\
     inGrid (from.1 + 2 * dx, from.2 + 2 * dy)).
Proof.
  intros Hh Hr [Hf1 Hf2] [Ht1 Ht2] dx dy. pose proof (Reachable_good w Hr) as Hg.
  assert (Hd : dispatch character from to = moveHero1 from to).
  { unfold isHero, dispatch in *. destruct (nameOf character) as [n|]; [| discriminate].
    destruct (Js.char0 n) as [ch|]; [| discriminate].
    apply Ascii.eqb_eq in Hh as ->. by destruct (Js.endsWith character "1"). }
  rewrite Hd. unfold moveHero1. destruct to as [x y], from as [fx fy]. cbn [fst snd] in *.
  destruct (readCell_good w x y Hg Ht1) as (c & Hrd & _).
  pose proof (readCell_inv _ _ _ _ _ Hrd) as [_ Hc].
  exists c. rewrite (bind_run _ _ _ _ _ Hrd), (bind_run getGame _ w (gameState w) w eq_refl).
  destruct (ownedBy c (currentPlayer (gameState w))) eqn:Ho.
  { exists false, w. split; [exact Hc |]. split; [reflexivity |].
    split; [discriminate |]. intros [Hn _]. exfalso. apply Hn.
    by apply ownedBy_friendly. }
  assert (Hnf : ~ friendlyCell c (current w)).
  { intros Hfr. apply ownedBy_friendly in Hfr. unfold current in Hfr. congruence. }
  destruct (heroPath_accepts [1; 2] fx fy dx dy w Hg) as (ok & w1 & Hp & Hg1 & Hiff).
  subst dx dy. rewrite (bind_run _ _ _ _ _ Hp).
  assert (Hpath : ok = true <->
            inGrid (fx + Z.sgn (x - fx), fy + Z.sgn (y - fy)) /\
            inGrid (fx + 2 * Z.sgn (x - fx), fy + 2 * Z.sgn (y - fy))).
  { rewrite Hiff, !Forall_cons, Forall_nil, !Z.mul_1_l. tauto. }
  destruct ok; cbn [negb].
  - destruct (readCell_good w1 fx fy Hg1 Hf1) as (v & Hrv & Hv).
    rewrite (bind_run _ _ _ _ _ Hrv).
    destruct (writeCell_good w1 x y v Hg1 Ht1 (proj1 Ht2) Hv) as (w2 & Hw2 & Hg2 & _).
    rewrite (bind_run _ _ _ _ _ Hw2).
    destruct (writeCell_good w2 fx fy None Hg2 Hf1 (proj1 Hf2)) as (w3 & Hw3 & _);
      [by left |].
    rewrite (bind_run _ _ _ _ _ Hw3). exists true, w3.
    split; [exact Hc |]. split; [reflexivity |].
    split; [intros _; split; [exact Hnf | by apply Hpath] | reflexivity].
  - exists false, w1. split; [exact Hc |]. split; [reflexivity |].
    split; [discriminate |]. intros [_ Hin]. by apply Hpath.
Qed.

(** In the approach scenario, after the first six commands A's hero stands
    on (2,0): the label "A-H1" is accepted on the diagonal to (3,1), and a
    label ending in 2 is accepted on the straight line to (3,0) just the
    same. *)
Lemma hero_move_accepted_iff_witness :
  (exists c moved w',
     cellAt (board (gameState (worldAfter (take 6 Scenario.approach)))) 3 1 = Some c /\
     dispatch "A-H1" (2, 0) (3, 1) (worldAfter (take 6 Scenario.approach)) = Ok moved w' /\
     (moved = true <->
      ~ friendlyCell c A /\ inGrid (2 + 1, 0 + 1) /\ inGrid (2 + 2 * 1, 0 + 2 * 1))) /\
  (exists c moved w',
     cellAt (board (gameState (worldAfter (take 6 Scenario.approach)))) 3 0 = Some c /\
     dispatch "A-H2" (2, 0) (3, 0) (worldAfter (take 6 Scenario.approach)) = Ok moved w' /\
     (moved = true <->
      ~ friendlyCell c A /\ inGrid (2 + 1, 0 + 0) /\ inGrid (2 + 2 * 1, 0 + 2 * 0))).
Proof.
  assert (Hr : Reachable (worldAfter (take 6 Scenario.approach)))
    by (apply (stateAfter_Reachable (take 6 Scenario.approach)); vm_compute; reflexivity).
  split.
  - apply (hero_move_accepted_iff (worldAfter (take 6 Scenario.approach)) "A-H1" (2, 0) (3, 1));
      [reflexivity | exact Hr | unfold inGrid; cbn; lia | unfold inGrid; cbn; lia].
  - apply (hero_move_accepted_iff (worldAfter (take 6 Scenario.approach)) "A-H2" (2, 0) (3, 0));
      [reflexivity | exact Hr | unfold inGrid; cbn; lia | unfold inGrid; cbn; lia].
Defined.

(** ** Finding a piece *)




Lemma find_placed player n s : forall k i,
  s !! i = Some n ->
  (forall j, (j < i)%nat -> s !! j <> Some n) ->
  find (fun p => String.eqb (name p) n)
       (imap (fun j piece => mkPiece piece (homeRow player) (Z.of_nat (k + j))) s)
    = Some (mkPiece n (homeRow player) (Z.of_nat (k + i))).
Proof.
  induction s as [|piece rest IH]; intros k i Hi Hfirst; [discriminate |].
  cbn [imap find name]. destruct i as [|i].
  - injection Hi as ->. by rewrite String.eqb_refl.
  - destruct (String.eqb_spec piece n) as [->|Hne].
    + exfalso. by apply (Hfirst 0%nat); [lia |].
    + replace (k + S i)%nat with (S k + i)%nat by lia.
      rewrite <- (IH (S k) i Hi).
      * f_equal. apply imap_ext. intros j x _. cbn. do 2 f_equal. lia.
      * intros j Hj. apply (Hfirst (S j)). lia.
Qed.

(** X18: after an accepted setup, the label of either player for a
    submitted name without a dash finds, in the roster just built, the
    entry of the FIRST occurrence of that name in the submitted sequence,
    at its home-row coordinates. *)
Theorem setup_then_findPiece
    (w : World) (s : list string) (i : nat) (n : string) (Y : Player) :
  fiveRows w ->
  pieces (current w) (gameState w) = [] ->
  s !! i = Some n ->
  (forall j, (j < i)%nat -> s !! j <> Some n) ->
  hasDash n = false ->
  exists w',
    handleSetup s w = Ok tt w' /\
    findPiece (current w) (label Y n) (gameState w')
      = Some (mkPiece n (homeRow (current w)) (Z.of_nat i)).
Proof.
  intros H5 Hempty Hi Hfirst Hd.
  destruct (fiveRows_home w (current w) H5) as [r Hr].
  eexists. split; [apply (handleSetup_run w s r Hempty Hr) |].
  unfold findPiece, current. cbn [gameState].
  rewrite nameOf_label, (split_without_dash n Hd), afterSetup_pieces. cbn [lookup list_lookup].
  apply (find_placed _ n s 0%nat i Hi Hfirst).
Qed.

(** "P1" submitted twice by A, looked up with B's label. *)
Lemma setup_then_findPiece_witness :
  exists w',
    handleSetup ["H1"; "P1"; "P1"] initialWorld = Ok tt w' /\
    findPiece A (label B "P1") (gameState w') = Some (mkPiece "P1" 0 (Z.of_nat 1)).
Proof.
  apply (setup_then_findPiece initialWorld ["H1"; "P1"; "P1"] 1%nat "P1" B);
    [reflexivity | reflexivity | reflexivity | | reflexivity].
  intros j Hj. assert (j = 0%nat) as -> by lia. discriminate.
Defined.

(** X19: a setup command is rejected exactly when the current player's
    roster is non-empty, and a rejected setup leaves game state and log as
    they were. *)
Theorem setup_rejected_iff_roster_nonempty (w : World) (s : list string) :
  fiveRows w ->
  exists w',
    handleSetup s w = Ok tt w' /\
    (Rejected w w' <-> pieces (current w) (gameState w) <> []) /\
    (Rejected w w' -> gameState w' = gameState w /\ moveHistory w' = moveHistory w).
Proof.
  intros H5. destruct (pieces (current w) (gameState w)) as [|p l] eqn:Hp.
  - destruct (fiveRows_home w (current w) H5) as [r Hr].
    eexists. split; [apply (handleSetup_run w s r Hp Hr) |].
    assert (Hn : ~ Rejected w
              (mkWorld (afterSetup (gameState w) s r) (moveHistory w)
                 (outbox w ++ [Broadcast (MUpdate (afterSetup (gameState w) s r))])))
      by (eapply (broadcast_not_rejected _ _ []); reflexivity).
    split; [split; [intros Hr'; contradiction | intros Hc; by contradiction Hc] |].
    intros Hr'. contradiction.
  - exists (mkWorld (gameState w) (moveHistory w)
              (outbox w ++ [Send (MError "Setup already completed.")])).
    split.
    + unfold handleSetup, current in *.
      rewrite (bind_run getGame _ w (gameState w) w eq_refl), Hp. reflexivity.
    + split; [split; [discriminate | intros _; by eexists] | by split].
Qed.

(** A second setup by the player whose turn it is and who has pieces. *)
Lemma setup_rejected_iff_roster_nonempty_witness :
  exists w',
    handleSetup ["P9"] Scenario.heroesPlaced = Ok tt w' /\
    (Rejected Scenario.heroesPlaced w' <->
     pieces (current Scenario.heroesPlaced) (gameState Scenario.heroesPlaced) <> []) /\
    (Rejected Scenario.heroesPlaced w' ->
     gameState w' = gameState Scenario.heroesPlaced /\
     moveHistory w' = moveHistory Scenario.heroesPlaced).
Proof.
  apply (setup_rejected_iff_roster_nonempty Scenario.heroesPlaced ["P9"]). reflexivity.
Defined.

(** ** A reset starts over *)

Lemma sameCore_refl w : sameCore w w.
Proof. by split. Qed.

Lemma blind_ret {T} (v : T) : blind (mret v).
Proof. intros w1 w2 Hc. cbn. split; [reflexivity |]. split; [exact Hc |].
  exists []. by rewrite !app_nil_r. Qed.

Lemma blind_throw {T} : blind (@throw T).
Proof. intros w1 w2 Hc. exact I. Qed.

Lemma blind_bind {T U} (c : M T) (f : T -> M U) :
  blind c -> (forall v, blind (f v)) -> blind (c ≫= f).
Proof.
  intros Hc Hf w1 w2 Hw. specialize (Hc w1 w2 Hw). unfold mbind, M_bind, agree in *.
  destruct (c w1) as [v1 w1'|], (c w2) as [v2 w2'|]; try done.
  destruct Hc as (-> & Hw' & evs & E1 & E2). specialize (Hf v2 w1' w2' Hw').
  unfold agree in Hf.
  destruct (f v2 w1') as [u1 w1''|], (f v2 w2') as [u2 w2''|]; try done.
  destruct Hf as (-> & Hw'' & evs' & E1' & E2').
  split; [reflexivity |]. split; [exact Hw'' |].
  exists (evs ++ evs')%list. by rewrite E1', E2', E1, E2, !app_assoc.
Qed.

(** A primitive whose result and new game and log are functions of the
    game and log, and which appends fixed messages. *)
Lemma blind_prim {T} (c : M T) (f : GameState -> list string -> option (T * GameState * list string))
    (evs : GameState -> list string -> list Event) :
  (forall w, c w = match f (gameState w) (moveHistory w) with
                   | Some (v, g, h) =>
                       Ok v (mkWorld g h (outbox w ++ evs (gameState w) (moveHistory w)))
                   | None => Thrown
                   end) ->
  blind c.
Proof.
  intros Hc w1 w2 [Hg Hh]. rewrite (Hc w1), (Hc w2), Hg, Hh.
  destruct (f _ _) as [[[v g] h]|]; [| exact I]. cbn.
  split; [reflexivity |]. split; [by split |]. by eexists.
Qed.

Lemma blind_getGame : blind getGame.
Proof.
  apply (blind_prim _ (fun g h => Some (g, g, h)) (fun _ _ => [])).
  intros [g h o]. cbn. by rewrite app_nil_r.
Qed.

Lemma blind_getHistory : blind getHistory.
Proof.
  apply (blind_prim _ (fun g h => Some (h, g, h)) (fun _ _ => [])).
  intros [g h o]. cbn. by rewrite app_nil_r.
Qed.

Lemma blind_modifyGame f : blind (modifyGame f).
Proof.
  apply (blind_prim _ (fun g h => Some (tt, f g, h)) (fun _ _ => [])).
  intros [g h o]. cbn. unfold modifyGame. cbn. by rewrite app_nil_r.
Qed.

Lemma blind_putHistory h : blind (putHistory h).
Proof.
  apply (blind_prim _ (fun g _ => Some (tt, g, h)) (fun _ _ => [])).
  intros [g h' o]. cbn. unfold putHistory. cbn. by rewrite app_nil_r.
Qed.

Lemma blind_emit e : blind (emit e).
Proof.
  apply (blind_prim _ (fun g h => Some (tt, g, h)) (fun _ _ => [e])).
  intros [g h o]. reflexivity.
Qed.

Lemma blind_initializeGame : blind initializeGame.
Proof.
  apply (blind_prim _ (fun _ _ => Some (tt, freshGame, [])) (fun _ _ => [])).
  intros [g h o]. cbn. unfold initializeGame. cbn. by rewrite app_nil_r.
Qed.

Lemma blind_readCell x y : blind (readCell x y).
Proof.
  apply (blind_prim _
    (fun g h => match cellAt (board g) x y with Some c => Some (c, g, h) | None => None end)
    (fun _ _ => [])).
  intros [g h o]. unfold readCell. cbn. destruct (cellAt _ x y); [| reflexivity].
  by rewrite app_nil_r.
Qed.

Lemma blind_writeCell x y v : blind (writeCell x y v).
Proof.
  apply (blind_prim _
    (fun g h => match setCell (board g) x y v with
                | Some b => Some (tt, withBoard b g, h)
                | None => None
                end)
    (fun _ _ => [])).
  intros [g h o]. unfold writeCell. cbn. destruct (setCell _ x y v); [| reflexivity].
  by rewrite app_nil_r.
Qed.

Create HintDb blind.
#[local] Hint Resolve blind_ret blind_throw blind_getGame blind_getHistory
  blind_modifyGame blind_putHistory blind_emit blind_initializeGame
  blind_readCell blind_writeCell : blind.

Ltac blind_steps :=
  repeat first
    [ apply blind_bind; [| intros ?]
    | match goal with |- blind (if ?b then _ else _) => destruct b end
    | match goal with |- blind (match ?o with Some _ => _ | None => _ end) =>
        destruct o end
    | solve [auto with blind] ].

Lemma blind_capturePiece x y : blind (capturePiece x y).
Proof. unfold capturePiece. blind_steps. Qed.

Lemma blind_movePawn from to : blind (movePawn from to).
Proof.
  unfold movePawn. destruct to as [x y].
  pose proof blind_capturePiece. blind_steps.
Qed.

Lemma blind_heroPath steps fx fy dx dy : blind (heroPath steps fx fy dx dy).
Proof.
  induction steps as [|i rest IH]; cbn [heroPath]; [auto with blind |].
  pose proof blind_capturePiece. blind_steps.
Qed.

Lemma blind_moveHero1 from to : blind (moveHero1 from to).
Proof.
  unfold moveHero1. destruct to as [x y], from as [fx fy].
  pose proof blind_heroPath. blind_steps.
Qed.

Lemma blind_dispatch character from to : blind (dispatch character from to).
Proof.
  unfold dispatch. destruct (nameOf character) as [n|]; [| auto with blind].
  destruct (Js.char0 n) as [ch|]; [| auto with blind].
  destruct (Ascii.eqb_spec ch "P") as [->|NP]; [apply blind_movePawn |].
  destruct (Ascii.eqb_spec ch "H") as [->|NH].
  - destruct (Js.endsWith _ _); apply blind_moveHero1.
  - destruct ch as [[] [] [] [] [] [] [] []];
      first [apply blind_ret | congruence].
Qed.

Lemma blind_dispatchNaN character : blind (dispatchNaN character).
Proof.
  unfold dispatchNaN. destruct (nameOf character) as [n|]; [| auto with blind].
  destruct (Js.char0 n) as [ch|]; [| auto with blind].
  destruct ch as [[] [] [] [] [] [] [] []]; auto with blind.
Qed.

Lemma blind_processMove player character move :
  blind (processMove player character move).
Proof.
  unfold processMove. apply blind_bind; [apply blind_getGame | intros g].
  destruct (scanFrom _ _ _ _) as [[from|]|]; [| auto with blind..].
  apply blind_bind.
  - destruct (directions player move) as [dr dc| |]; [| apply blind_dispatchNaN | auto with blind].
    cbv zeta. destruct (offBoard _); [auto with blind | apply blind_dispatch].
  - intros moved. unfold broadcast. blind_steps.
Qed.

Lemma blind_handleMove character move : blind (handleMove character move).
Proof.
  unfold handleMove, wsSend, broadcast.
  apply blind_bind; [apply blind_getGame | intros g].
  destruct (findPiece _ _ _); [| auto with blind].
  apply blind_bind; [apply blind_processMove | intros valid]. blind_steps.
Qed.

Lemma blind_placePieces player s : forall index, blind (placePieces player index s).
Proof.
  induction s as [|piece rest IH]; intros index; cbn [placePieces]; [auto with blind |].
  apply blind_bind; [auto with blind | intros _].
  apply blind_bind; [apply IH | intros tl; auto with blind].
Qed.

Lemma blind_handleSetup s : blind (handleSetup s).
Proof.
  unfold handleSetup, wsSend, broadcast.
  apply blind_bind; [apply blind_getGame | intros g].
  destruct (nonEmpty _); [auto with blind |].
  apply blind_bind; [apply blind_placePieces | intros ps]. blind_steps.
Qed.

Lemma blind_onMessage c : blind (onMessage c).
Proof.
  destruct c; cbn [onMessage];
    [apply blind_handleSetup | apply blind_handleMove |].
  unfold resetGame, broadcast. blind_steps.
Qed.

Lemma blind_run cs : blind (run cs).
Proof.
  induction cs as [|c rest IH]; cbn [run]; [auto with blind |].
  apply blind_bind; [apply blind_onMessage | intros _; exact IH].
Qed.

(** X20: no handler reads the messages already sent, so a reset starts the
    match over: for every world and every sequence of commands, handling a
    reset and then the sequence throws exactly when the sequence throws
    from the initial world, and otherwise ends with the same game state and
    log and has sent, after the update of the reset, the same messages. *)
Theorem reset_starts_over (w : World) (cs : list Command) :
  match run cs initialWorld, run (Reset :: cs) w with
  | Ok _ a, Ok _ b =>
      gameState b = gameState a /\ moveHistory b = moveHistory a /\
      outbox b = (outbox w ++ Broadcast (MUpdate freshGame) :: outbox a)%list
  | Thrown, Thrown => True
  | _, _ => False
  end.
Proof.
  cbn [run onMessage]. erewrite bind_run; [| apply resetGame_run].
  pose proof (blind_run cs initialWorld
                (mkWorld freshGame [] (outbox w ++ [Broadcast (MUpdate freshGame)]))
                (sameCore_refl _)) as H.
  unfold agree in H.
  destruct (run cs initialWorld) as [[] a|], (run cs _) as [[] b|]; try done.
  destruct H as (_ & [Hg Hh] & evs & E1 & E2). cbn in E1, E2.
  split; [by symmetry |]. split; [by symmetry |].
  by rewrite E2, E1, <- app_assoc.
Qed.
